(** * generate_spritesheet.py: rendering frames and compositing a spritesheet

    A shallow embedding of [scripts/generate_spritesheet.py].  The script is a
    straight sequence of calls into three external systems: the 3D renderer
    ([bpy]), the imaging library ([PIL.Image]) and the filesystem ([os]).
    The embedding keeps the script's control flow (one outer loop over the
    animation descriptors, a render loop, two nested compositing loops) and
    runs it in a state-and-fault monad over an explicit [World]:

    - the renderer's shared state ([frame_current], [filepath]),
    - the filesystem, a finite map from paths to image files,
    - the ordered log of every external call the script attempted.

    Every external call may be refused by the environment (disk full, missing
    permission, renderer crash ...): the oracle [refuses] is a parameter and
    all results hold for every oracle.  So are the scene (the raster rendered
    for each frame number, of any size) and [os.path.join].

    Files carry the origin of their content, so that "a file written by the
    renderer" can be told from a sheet saved under the same path. *)

From Stdlib Require Import ZArith String List.
From stdpp Require Import base tactics option list numbers strings pretty gmap
  sorting.

Local Open Scope Z_scope.

(** ** Rasters *)

(** An RGBA pixel: four channel values. *)
Definition Pixel : Type := Z * Z * Z * Z.

(** [Image.new('RGBA', size)] fills the raster with zeroes. *)
Definition transparent : Pixel := (0, 0, 0, 0).

(** A raster: its size and the pixel stored at every coordinate.  Only the
    coordinates inside the size are part of the image, see [getpixel]. *)
Record Image : Type := mkImage {
  width : Z;
  height : Z;
  pixels : Z → Z → Pixel
}.

Definition inside (im : Image) (x y : Z) : bool :=
  (0 <=? x) && (x <? width im) && (0 <=? y) && (y <? height im).

(** [im.getpixel((x, y))]; outside the raster there is no pixel. *)
Definition getpixel (im : Image) (x y : Z) : option Pixel :=
  if inside im x y then Some (pixels im x y) else None.

Definition blank (w h : Z) : Image :=
  {| width := w; height := h; pixels := λ _ _, transparent |}.

(** [dst.paste(src, (x, y))] without a mask: the box of [src]'s size placed
    at [(x, y)] is overwritten with [src]'s pixels, unblended; the size of
    [dst] never changes (what falls outside is clipped). *)
Definition paste (dst src : Image) (x y : Z) : Image :=
  {| width := width dst;
     height := height dst;
     pixels := λ u v,
       if inside src (u - x) (v - y) then pixels src (u - x) (v - y)
       else pixels dst u v |}.

(** ** The world the script acts on *)

(** Who wrote a file: the renderer ([bpy.ops.render.render]), the script's
    final [spriteSheet.save], or anything that was on disk before. *)
Inductive Origin : Type := Rendered | Saved | Foreign.

Record File : Type := mkFile {
  origin : Origin;
  content : Image
}.

(** The external calls of the script, with their arguments.  [Render] carries
    the two pieces of shared renderer state the call reads when it runs. *)
Inductive call : Type :=
  | SetFrameCurrent (frame : Z)
  | SetFilepath (path : string)
  | Render (frame : Z) (path : string)
  | ImageNew (w h : Z)
  | ImageOpen (path : string)
  | Paste (x y : Z)
  | OsRemove (path : string)
  | Save (path : string).

Global Instance call_eq_dec : EqDecision call.
Proof. solve_decision. Defined.

(** A log entry: the call and whether it went through or raised. *)
Inductive entry : Type :=
  | Done (c : call)
  | Raised (c : call).

Record World : Type := mkWorld {
  frame_current : Z;
  filepath : string;
  fs : gmap string File;
  log : list entry
}.

Definition record (e : entry) (w : World) : World :=
  {| frame_current := frame_current w; filepath := filepath w;
     fs := fs w; log := log w ++ [e] |}.

Definition with_frame_current (n : Z) (w : World) : World :=
  {| frame_current := n; filepath := filepath w; fs := fs w; log := log w |}.

Definition with_filepath (p : string) (w : World) : World :=
  {| frame_current := frame_current w; filepath := p;
     fs := fs w; log := log w |}.

Definition with_fs (m : gmap string File) (w : World) : World :=
  {| frame_current := frame_current w; filepath := filepath w;
     fs := m; log := log w |}.

(** ** The state-and-fault monad *)

(** A computation either returns a value and the new world, or stops at the
    world in which an exception was raised. *)
Inductive Result (A : Type) : Type :=
  | Ok (a : A) (w : World)
  | Fault (w : World).
Global Arguments Ok {A} a w.
Global Arguments Fault {A} w.

Definition M (A : Type) : Type := World → Result A.

Global Instance M_ret : MRet M := λ A a w, Ok a w.

Global Instance M_bind : MBind M := λ A B k m w,
  match m w with
  | Ok a w' => k a w'
  | Fault w' => Fault w'
  end.

(** The world a computation ended in, whether it returned or raised. *)
Definition world_of {A} (r : Result A) : World :=
  match r with
  | Ok _ w => w
  | Fault w => w
  end.

(** The log entries added between the world [w] and the later world [w']. *)
Definition since (w w' : World) : list entry :=
  drop (length (log w)) (log w').

(** A Python exception raised by the interpreter itself. *)
Definition raise {A} : M A := λ w, Fault w.

(** [for x in xs: s = body(x, s)]: a loop that updates the loop-carried
    value [s] (the script's [spriteSheet], mutated by [paste]). *)
Fixpoint for_fold {A S : Type} (xs : list A) (body : A → S → M S) (s : S)
    : M S :=
  match xs with
  | [] => mret s
  | x :: xs' => s' ← body x s; for_fold xs' body s'
  end.

Definition for_each {A : Type} (xs : list A) (body : A → M unit) : M unit :=
  for_fold xs (λ x _, body x) tt.

(** [range(n)]: [0, 1, ..., n-1], empty when [n ≤ 0]. *)
Definition range (n : Z) : list Z := seqZ 0 n.

(** [len(l)] *)
Definition len {A} (l : list A) : Z := Z.of_nat (length l).

(** [l[i]]: negative indices count from the end; out of range raises. *)
Definition getitem {A} (l : list A) (i : Z) : M A :=
  let k := if decide (0 ≤ i) then i else len l + i in
  if decide (0 ≤ k) then
    match l !! Z.to_nat k with
    | Some x => mret x
    | None => raise
    end
  else raise.

(** [str(i)] for an integer: decimal digits, a leading [-] when negative. *)
Definition str (i : Z) : string := pretty i.

(** An animation descriptor, one dictionary of the [animations] list. *)
Record Animation : Type := mkAnimation {
  name : string;
  startFrame : Z;
  endFrame : Z
}.

(** The script's surroundings and globals: the environment it runs in and
    the constants of lines 5-10. *)
Record Setup : Type := mkSetup {
  (** which external calls the environment refuses, in which world *)
  refuses : call → World → bool;
  (** the scene: the raster the renderer produces for a frame number *)
  renderFrame : Z → Image;
  (** [os.path.join] *)
  join : string → string → string;
  (** [bpy.data.scenes['Scene'].render.resolution_x] *)
  spriteSize : Z;
  basePath : string;
  imageName : string
}.

(** An external call: refused by the environment, or failing on its own
    ([act] gives [None]), it raises and the attempt is logged; otherwise its
    effect takes place and the call is logged as done. *)
Definition external {A} (cfg : Setup) (c : call)
    (act : World → option (A * World)) : M A := λ w,
  if refuses cfg c w then Fault (record (Raised c) w)
  else match act w with
       | Some (a, w') => Ok a (record (Done c) w')
       | None => Fault (record (Raised c) w)
       end.

(** [bpy.context.scene.frame_current = n] *)
Definition set_frame_current (cfg : Setup) (n : Z) : M unit :=
  external cfg (SetFrameCurrent n) (λ w, Some (tt, with_frame_current n w)).

(** [bpy.context.scene.render.filepath = p] *)
Definition set_filepath (cfg : Setup) (p : string) : M unit :=
  external cfg (SetFilepath p) (λ w, Some (tt, with_filepath p w)).

(** [bpy.ops.render.render(write_still=True)]: renders the scene at its
    current frame and writes the still to the scene's file path, to which
    the renderer adds the extension of its file format; the script counts on
    [.png] (line 33).  Both the frame number and the path are read from the
    world at the time of the call. *)
Definition render (cfg : Setup) : M unit := λ w,
  external cfg (Render (frame_current w) (filepath w))
    (λ w, Some (tt, with_fs (<[filepath w +:+ ".png" :=
                      mkFile Rendered (renderFrame cfg (frame_current w))]>
                      (fs w)) w)) w.

(** [Image.new('RGBA', (w, h))]; a negative size is a [ValueError], and a
    size that does not fit the library's C integers, from [2^31] on, is an
    [OverflowError].  (An allocation that fails for lack of memory is the
    environment refusing the call.) *)
Definition Image_new (cfg : Setup) (w h : Z) : M Image :=
  external cfg (ImageNew w h)
    (λ wd, if (0 <=? w) && (w <? 2 ^ 31) && (0 <=? h) && (h <? 2 ^ 31)
           then Some (blank w h, wd) else None).

(** [Image.open(p)]; a missing file is a [FileNotFoundError]. *)
Definition Image_open (cfg : Setup) (p : string) : M Image :=
  external cfg (ImageOpen p) (λ w, f ← fs w !! p; Some (content f, w)).

(** [sheet.paste(image, (x, y))] *)
Definition Image_paste (cfg : Setup) (sheet image : Image) (x y : Z)
    : M Image :=
  external cfg (Paste x y) (λ w, Some (paste sheet image x y, w)).

(** [os.remove(p)]; a missing file is a [FileNotFoundError]. *)
Definition os_remove (cfg : Setup) (p : string) : M unit :=
  external cfg (OsRemove p)
    (λ w, _ ← fs w !! p; Some (tt, with_fs (delete p (fs w)) w)).

(** [sheet.save(p)]; the encoder raises on an empty raster, one of zero
    width or zero height, and nothing is written. *)
Definition Image_save (cfg : Setup) (sheet : Image) (p : string) : M unit :=
  external cfg (Save p)
    (λ w, if (0 <? width sheet) && (0 <? height sheet)
          then Some (tt, with_fs (<[p := mkFile Saved sheet]> (fs w)) w)
          else None).

(** The body of [for animation in animations:] (lines 16-40). *)
Definition generate_one (cfg : Setup) (animation : Animation) : M unit :=
  let renderPaths : list string := [] in
  let startFrame := startFrame animation in
  let endFrame := endFrame animation in
  let name := name animation in
  let animationLength := endFrame - startFrame in
  let file := join cfg (basePath cfg) (imageName cfg) in
  let renderPaths := renderPaths ++ [file] in
  for_each (range animationLength) (λ i,
    set_frame_current cfg (startFrame + i);;
    set_filepath cfg (file +:+ str i);;
    render cfg);;
  spriteSheet ← Image_new cfg (spriteSize cfg * animationLength)
                              (spriteSize cfg * len renderPaths);
  spriteSheet ← for_fold (range (len renderPaths)) (λ i spriteSheet,
    for_fold (range animationLength) (λ j spriteSheet,
      renderPath ← getitem renderPaths i;
      let imagePath := (renderPath +:+ str j) +:+ ".png" in
      image ← Image_open cfg imagePath;
      spriteSheet ← Image_paste cfg spriteSheet image
                      (spriteSize cfg * j) (spriteSize cfg * i);
      os_remove cfg imagePath;;
      mret spriteSheet) spriteSheet) spriteSheet;
  Image_save cfg spriteSheet
    (((basePath cfg +:+ "\") +:+ name) +:+ ".png").

(** The whole script: [for animation in animations: ...]. *)
Definition generate_spritesheet (cfg : Setup) (animations : list Animation)
    : M unit :=
  for_each animations (generate_one cfg).

(** The world at the end of one pass, and at the end of the run. *)
Definition pass_end (cfg : Setup) (a : Animation) (w : World) : World :=
  world_of (generate_one cfg a w).

Definition run_end (cfg : Setup) (animations : list Animation) (w : World)
    : World :=
  world_of (generate_spritesheet cfg animations w).

(** ** What the script is expected to call *)

(** The path prefix of the intermediate frames ([file], line 22). *)
Definition frame_prefix (cfg : Setup) : string :=
  join cfg (basePath cfg) (imageName cfg).

(** The file the renderer leaves behind for loop index [j]. *)
Definition frame_file (cfg : Setup) (j : Z) : string :=
  (frame_prefix cfg +:+ str j) +:+ ".png".

(** The file the finished sheet of an animation is saved to. *)
Definition sheet_path (cfg : Setup) (a : Animation) : string :=
  ((basePath cfg +:+ "\") +:+ name a) +:+ ".png".

Definition animationLength (a : Animation) : Z :=
  endFrame a - startFrame a.

(** The calls of the render loop's pass for loop index [i]. *)
Definition render_calls (cfg : Setup) (a : Animation) (i : Z) : list call :=
  [SetFrameCurrent (startFrame a + i);
   SetFilepath (frame_prefix cfg +:+ str i);
   Render (startFrame a + i) (frame_prefix cfg +:+ str i)].

(** The calls of the compositing loop's pass for frame index [j]. *)
Definition composite_calls (cfg : Setup) (j : Z) : list call :=
  [ImageOpen (frame_file cfg j);
   Paste (spriteSize cfg * j) (spriteSize cfg * 0);
   OsRemove (frame_file cfg j)].

Definition render_script (cfg : Setup) (a : Animation) : list call :=
  concat (render_calls cfg a <$> range (animationLength a)).

Definition composite_script (cfg : Setup) (a : Animation) : list call :=
  concat (composite_calls cfg <$> range (animationLength a)).

(** All calls of one pass of the outer loop, in order. *)
Definition script (cfg : Setup) (a : Animation) : list call :=
  render_script cfg a
  ++ [ImageNew (spriteSize cfg * animationLength a) (spriteSize cfg * 1)]
  ++ composite_script cfg a
  ++ [Save (sheet_path cfg a)].

(** All calls of the run, in order. *)
Definition full_script (cfg : Setup) (animations : list Animation)
    : list call :=
  concat (script cfg <$> animations).

(** The temporary files of an animation of length [n]. *)
Definition temp_files (cfg : Setup) (n : Z) : list string :=
  frame_file cfg <$> range n.

(** ** Projections of a log *)

(** The frame numbers of the renders that went through, in order. *)
Definition rendered_frames (l : list entry) : list Z :=
  omap (λ e, match e with Done (Render f _) => Some f | _ => None end) l.

(** The paths handed to the renderer by the renders that went through. *)
Definition rendered_paths (l : list entry) : list string :=
  omap (λ e, match e with Done (Render _ p) => Some p | _ => None end) l.

(** The paths of the images that were saved. *)
Definition saved_paths (l : list entry) : list string :=
  omap (λ e, match e with Done (Save p) => Some p | _ => None end) l.

(** The paths of the files that were removed. *)
Definition removed_paths (l : list entry) : list string :=
  omap (λ e, match e with Done (OsRemove p) => Some p | _ => None end) l.

(** The sizes of the rasters that were allocated. *)
Definition allocated_sizes (l : list entry) : list (Z * Z) :=
  omap (λ e, match e with Done (ImageNew w h) => Some (w, h) | _ => None end)
       l.

(** The frame numbers written to [frame_current]. *)
Definition frames_set (l : list entry) : list Z :=
  omap (λ e, match e with Done (SetFrameCurrent f) => Some f | _ => None end)
       l.

(** The paths of the images that were opened. *)
Definition opened_paths (l : list entry) : list string :=
  omap (λ e, match e with Done (ImageOpen p) => Some p | _ => None end) l.

(** The offsets of the pastes. *)
Definition paste_offsets (l : list entry) : list (Z * Z) :=
  omap (λ e, match e with Done (Paste x y) => Some (x, y) | _ => None end) l.

(** The calls that were attempted, done or not. *)
Definition attempted (l : list entry) : list call :=
  (λ e, match e with Done c => c | Raised c => c end) <$> l.

(** The calls that raised. *)
Definition raised (l : list entry) : list call :=
  omap (λ e, match e with Raised c => Some c | _ => None end) l.

(** Every render call in [s] comes directly after the two writes of the
    state it reads: [prev2] and [prev1] are the two calls before [s]. *)
Fixpoint prepared_from (prev2 prev1 : option call) (s : list call) : bool :=
  match s with
  | [] => true
  | c :: s' =>
      match c with
      | Render f p =>
          bool_decide (prev2 = Some (SetFrameCurrent f)
                       ∧ prev1 = Some (SetFilepath p))
      | _ => true
      end
      && prepared_from prev1 (Some c) s'
  end.

Definition prepared (s : list call) : bool := prepared_from None None s.

Definition is_render (c : call) : bool :=
  match c with Render _ _ => true | _ => false end.

(** Images are opened, pasted and removed only in this pattern: open a file,
    paste it, remove that same file, with nothing in between. *)
Fixpoint tidy (s : list call) : bool :=
  match s with
  | [] => true
  | ImageOpen p :: s1 =>
      match s1 with
      | Paste _ _ :: OsRemove q :: s3 => bool_decide (p = q) && tidy s3
      | _ => false
      end
  | Paste _ _ :: _ => false
  | OsRemove _ :: _ => false
  | _ :: s' => tidy s'
  end.

(** Whether a computation raised. *)
Definition is_fault {A} (r : Result A) : bool :=
  match r with
  | Ok _ _ => false
  | Fault _ => true
  end.

(** An environment that refuses nothing. *)
Definition benign (cfg : Setup) : Prop := ∀ c w, refuses cfg c w = false.

(** ** The directory and the sheet in closed form *)

(** No file on disk was written by the renderer. *)
Definition no_rendered (m : gmap string File) : Prop :=
  ∀ p f, m !! p = Some f → origin f ≠ Rendered.

(** Removing a list of paths from a directory. *)
Definition delete_all (ps : list string) (m : gmap string File)
    : gmap string File :=
  foldr delete m ps.

(** The directory after the renders for the loop indices [js]. *)
Definition render_all (cfg : Setup) (a : Animation) (js : list Z)
    (m : gmap string File) : gmap string File :=
  foldl (λ m j, <[frame_file cfg j :=
                    mkFile Rendered (renderFrame cfg (startFrame a + j))]> m)
        m js.

(** The directory after the frame files of [js] have been removed. *)
Definition remove_all (cfg : Setup) (js : list Z) (m : gmap string File)
    : gmap string File :=
  foldl (λ m j, delete (frame_file cfg j) m) m js.

(** The sheet after the frames of the loop indices [js] have been pasted,
    left to right, onto a blank raster. *)
Definition compose (cfg : Setup) (a : Animation) (js : list Z) : Image :=
  foldl (λ sheet j,
           paste sheet (renderFrame cfg (startFrame a + j))
                 (spriteSize cfg * j) (spriteSize cfg * 0))
        (blank (spriteSize cfg * animationLength a) (spriteSize cfg * 1))
        js.

(** The directory after one pass of the outer loop: the temporary files are
    gone and the sheet is in place. *)
Definition after_pass (cfg : Setup) (a : Animation) (m : gmap string File)
    : gmap string File :=
  <[sheet_path cfg a :=
      mkFile Saved (compose cfg a (range (animationLength a)))]>
    (delete_all (temp_files cfg (animationLength a)) m).

(** The directory after the whole run. *)
Definition after_run (cfg : Setup) (animations : list Animation)
    (m : gmap string File) : gmap string File :=
  foldl (λ m a, after_pass cfg a m) m animations.

(** ** A program logic for the script *)

(** The calls of the pass for [a] that raise on their own, whatever the
    environment: [Image.new] asked for a raster of negative or too large a
    size, and the save of an empty sheet.  (Opening or removing a missing
    file raises too; the rules below exclude it by a precondition.) *)
Definition own_fault (cfg : Setup) (a : Animation) (c : call) : Prop :=
  (c = ImageNew (spriteSize cfg * animationLength a) (spriteSize cfg * 1) ∧
   (spriteSize cfg * animationLength a < 0 ∨ spriteSize cfg < 0 ∨
    2 ^ 31 ≤ spriteSize cfg * animationLength a ∨ 2 ^ 31 ≤ spriteSize cfg)) ∨
  (c = Save (sheet_path cfg a) ∧
   (spriteSize cfg * animationLength a ≤ 0 ∨ spriteSize cfg ≤ 0)).

(** The sheet of [a] can be allocated and saved: it is not empty and its
    sides fit the imaging library's integers. *)
Definition sheet_fits (cfg : Setup) (a : Animation) : Prop :=
  0 < spriteSize cfg * animationLength a < 2 ^ 31 ∧
  0 < spriteSize cfg < 2 ^ 31.

(** [spec cfg F P m s Q]: started in a world satisfying [P], the computation
    [m] either performs exactly the calls [s], in order, and ends with [Q];
    or it performs a strict prefix of [s], the next call of [s] raises, and
    [m] stops there; the call that raised was refused by the environment or
    is one of [F], the calls that raise on their own. *)
Definition spec {A} (cfg : Setup) (F : call → Prop) (P : World → Prop)
    (m : M A) (s : list call) (Q : A → World → Prop) : Prop :=
  ∀ w, P w →
    match m w with
    | Ok a w' => log w' = log w ++ (Done <$> s) ∧ Q a w'
    | Fault w' => ∃ pre c post w0,
        s = pre ++ c :: post ∧
        w' = record (Raised c) w0 ∧
        log w0 = log w ++ (Done <$> pre) ∧
        (refuses cfg c w0 = true ∨ F c)
    end.

(** ** The constants of the script and a small scene to run it on *)

Module Source.

(** Lines 9-13 of the script. *)
Definition basePath : string := "G:\Files\Media\Blender\Spritesheet".
Definition imageName : string := "guy".
Definition animations : list Animation := [mkAnimation "walk" 1 20].

(** The script as it stands, in an environment with resolution [size]. *)
Definition setup (refuses : call → World → bool) (renderFrame : Z → Image)
    (join : string → string → string) (size : Z) : Setup :=
  mkSetup refuses renderFrame join size basePath imageName.

End Source.

Module Demo.

(** [os.path.join] on Windows for a relative second part. *)
Definition ntpath_join (a b : string) : string := (a +:+ "\") +:+ b.

(** A scene whose frame [f] is a 2×2 raster that records [f] and the
    coordinates in its channels. *)
Definition frame (f : Z) : Image := mkImage 2 2 (λ x y, (f, x, y, 255)).

(** An environment that refuses nothing, with sprites of size 2. *)
Definition scene : Setup :=
  mkSetup (λ _ _, false) frame ntpath_join 2 "D:\out" "guy".

(** An environment in which the third render crashes. *)
Definition crashing : Setup :=
  mkSetup (λ c _, bool_decide (c = Render 3 "D:\out\guy2"))
          frame ntpath_join 2 "D:\out" "guy".

(** A fresh world: nothing on disk, nothing logged. *)
Definition empty : World := mkWorld 0 "" ∅ [].

(** A world with a file of foreign origin on disk. *)
Definition used : World :=
  mkWorld 7 "old" {[ "D:\out\guy0.png" := mkFile Foreign (frame 0) ]} [].

Definition walk : Animation := mkAnimation "walk" 1 4.
Definition idle : Animation := mkAnimation "idle" 5 5.
Definition jump : Animation := mkAnimation "jump" 10 12.

End Demo.

Module Shelf.

(** A directory that is in use: an old frame file, a file under a name the
    script never uses, and notes. *)
Definition cluttered : World :=
  mkWorld 7 "old"
    (<[ "D:\out\guy0.png" := mkFile Foreign (Demo.frame 0) ]>
       (<[ "D:\out\guy7.png" := mkFile Foreign (Demo.frame 7) ]>
          {[ "D:\out\notes.txt" := mkFile Foreign (Demo.frame 9) ]}))
    [].

End Shelf.

(** ** The run as a sequence of single calls *)

(** One attempted external call: it raises and only the log grows, or it is
    done and has the effect of the call on the renderer's state or on the
    directory.  The side conditions are the ones under which the call does
    not raise on its own. *)
Inductive step (cfg : Setup) : World → World → Prop :=
  | step_raised c w :
      step cfg w (record (Raised c) w)
  | step_set_frame_current n w :
      step cfg w (record (Done (SetFrameCurrent n)) (with_frame_current n w))
  | step_set_filepath p w :
      step cfg w (record (Done (SetFilepath p)) (with_filepath p w))
  | step_render w :
      step cfg w
        (record (Done (Render (frame_current w) (filepath w)))
           (with_fs (<[filepath w +:+ ".png" :=
                         mkFile Rendered (renderFrame cfg (frame_current w))]>
                       (fs w)) w))
  | step_Image_new x y w :
      0 ≤ x → 0 ≤ y →
      step cfg w (record (Done (ImageNew x y)) w)
  | step_Image_open p f w :
      fs w !! p = Some f →
      step cfg w (record (Done (ImageOpen p)) w)
  | step_Image_paste x y w :
      step cfg w (record (Done (Paste x y)) w)
  | step_os_remove p w :
      is_Some (fs w !! p) →
      step cfg w (record (Done (OsRemove p)) (with_fs (delete p (fs w)) w))
  | step_Image_save sheet p w :
      step cfg w
        (record (Done (Save p))
           (with_fs (<[p := mkFile Saved sheet]> (fs w)) w)).

(** A computation that changes the world by such calls only. *)
Definition walks {A} (cfg : Setup) (m : M A) : Prop :=
  ∀ w, rtc (step cfg) w (world_of (m w)).

(** The calls a pass makes before it starts compositing. *)
Definition early (c : call) : bool :=
  match c with
  | SetFrameCurrent _ | SetFilepath _ | Render _ _ | ImageNew _ _ => true
  | _ => false
  end.


(** The files a log shows to have been written or removed. *)
Definition touched (l : list entry) : list string :=
  omap (λ e, match e with
             | Done (Render _ p) => Some (p +:+ ".png")
             | Done (OsRemove p) => Some p
             | Done (Save p) => Some p
             | _ => None
             end) l.

(** ** Facts about strings, ranges and rasters *)

Lemma append_cons (c : Ascii.ascii) (s t : string) :
  String c s +:+ t = String c (s +:+ t).
Proof. reflexivity. Qed.

Lemma append_length (s1 s2 : string) :
  String.length (s1 +:+ s2) = (String.length s1 + String.length s2)%nat.
Proof.
  induction s1 as [|c s1 IH]; [done|].
  rewrite append_cons. simpl. by rewrite IH.
Qed.

(** A common suffix can be cancelled. *)
Lemma append_inj_l (t s1 s2 : string) : s1 +:+ t = s2 +:+ t → s1 = s2.
Proof.
  revert s2. induction s1 as [|c s1 IH]; intros [|d s2] H.
  - done.
  - apply (f_equal String.length) in H.
    rewrite append_cons in H. simpl in H.
    rewrite !append_length in H. simpl in H. lia.
  - apply (f_equal String.length) in H.
    rewrite append_cons in H. simpl in H.
    rewrite !append_length in H. simpl in H. lia.
  - rewrite !append_cons in H. injection H as -> H. f_equal. by apply IH.
Qed.

Lemma str_inj (i j : Z) : str i = str j → i = j.
Proof. unfold str. apply pretty_Z_inj. Qed.

Lemma frame_file_inj cfg (i j : Z) :
  frame_file cfg i = frame_file cfg j → i = j.
Proof.
  unfold frame_file. intros H.
  apply append_inj_l in H. apply String.app_inj in H. by apply str_inj.
Qed.

Lemma elem_of_range (n i : Z) : i ∈ range n ↔ 0 ≤ i < n.
Proof. unfold range. rewrite elem_of_seqZ. lia. Qed.

Lemma range_nonpos (n : Z) : n ≤ 0 → range n = [].
Proof.
  intros H. unfold range, seqZ.
  replace (Z.to_nat n) with 0%nat by lia. done.
Qed.

Lemma range_succ (n : Z) : 0 ≤ n → range (n + 1) = range n ++ [n].
Proof.
  intros H. unfold range. rewrite seqZ_app by lia. by f_equal.
Qed.

Lemma length_range (n : Z) : length (range n) = Z.to_nat n.
Proof. unfold range. by rewrite length_seqZ. Qed.

Lemma NoDup_range (n : Z) : NoDup (range n).
Proof. unfold range. apply NoDup_seqZ. Qed.

Lemma lookup_delete_all (ps : list string) (m : gmap string File) q :
  delete_all ps m !! q = if decide (q ∈ ps) then None else m !! q.
Proof.
  induction ps as [|p ps IH].
  - rewrite decide_False by apply not_elem_of_nil. done.
  - change (delete_all (p :: ps) m) with (delete p (delete_all ps m)).
    destruct (decide (p = q)) as [->|Hne].
    + rewrite lookup_delete_eq. rewrite decide_True; [done | left].
    + rewrite lookup_delete_ne by done. rewrite IH.
      destruct (decide (q ∈ ps)) as [Hin|Hin].
      * rewrite decide_True; [done | by right].
      * rewrite decide_False; [done|].
        intros [->|?]%elem_of_cons; done.
Qed.
Lemma width_paste dst src x y : width (paste dst src x y) = width dst.
Proof. done. Qed.

Lemma height_paste dst src x y : height (paste dst src x y) = height dst.
Proof. done. Qed.

Lemma inside_true im x y :
  inside im x y = true ↔ 0 ≤ x < width im ∧ 0 ≤ y < height im.
Proof.
  unfold inside. rewrite !andb_true_iff.
  rewrite !Z.leb_le, !Z.ltb_lt. lia.
Qed.

Lemma inside_false im x y :
  inside im x y = false ↔ ¬ (0 ≤ x < width im ∧ 0 ≤ y < height im).
Proof. rewrite <- inside_true. by destruct (inside im x y). Qed.

(** Right after a paste, the pasted box shows the source, pixel for pixel,
    wherever it lies on the destination. *)
Lemma getpixel_paste_in dst src x y u v :
  inside src u v = true → inside dst (x + u) (y + v) = true →
  getpixel (paste dst src x y) (x + u) (y + v) = getpixel src u v.
Proof.
  intros Hs Hd. unfold getpixel.
  replace (inside (paste dst src x y) (x + u) (y + v)) with true.
  rewrite Hs. simpl.
  replace (x + u - x) with u by lia. replace (y + v - y) with v by lia.
  by rewrite Hs.
Qed.

(** A paste leaves everything outside its box as it was. *)
Lemma getpixel_paste_out dst src x y u v :
  inside src (u - x) (v - y) = false →
  getpixel (paste dst src x y) u v = getpixel dst u v.
Proof.
  intros Hs. unfold getpixel.
  replace (inside (paste dst src x y) u v) with (inside dst u v) by done.
  destruct (inside dst u v); [|done]. simpl. by rewrite Hs.
Qed.
(** ** Rules of the program logic *)

Lemma spec_ret {A} cfg F (P : World → Prop) (a : A) (Q : A → World → Prop) :
  (∀ w, P w → Q a w) → spec cfg F P (mret a) [] Q.
Proof.
  intros H w Hw. unfold mret, M_ret. simpl.
  split; [by rewrite app_nil_r | auto].
Qed.

Lemma spec_bind {A B} cfg F P (m : M A) (k : A → M B) s1 s2 Q1 Q :
  spec cfg F P m s1 Q1 →
  (∀ a, spec cfg F (Q1 a) (k a) s2 Q) →
  spec cfg F P (m ≫= k) (s1 ++ s2) Q.
Proof.
  intros Hm Hk w Hw. specialize (Hm w Hw).
  unfold mbind, M_bind. destruct (m w) as [a w1|w1].
  - destruct Hm as [Hlog HQ1]. specialize (Hk a w1 HQ1).
    destruct (k a w1) as [b w2|w2].
    + destruct Hk as [Hlog2 HQ]. split; [|done].
      rewrite Hlog2, Hlog, fmap_app. by rewrite app_assoc.
    + destruct Hk as (pre & c & post & w0 & -> & -> & Hlog2 & Hc).
      exists (s1 ++ pre), c, post, w0. split_and!; try done.
      * by rewrite app_assoc.
      * rewrite Hlog2, Hlog, fmap_app. by rewrite app_assoc.
  - destruct Hm as (pre & c & post & w0 & -> & -> & Hlog & Hc).
    exists pre, c, (post ++ s2), w0. split_and!; try done.
    by rewrite <- app_assoc.
Qed.

(** The calls that raise on their own may be described more loosely. *)
Lemma spec_blame {A} cfg (F F' : call → Prop) (P : World → Prop) (m : M A) s
    (Q : A → World → Prop) :
  (∀ c, F c → F' c) → spec cfg F P m s Q → spec cfg F' P m s Q.
Proof.
  intros HF Hm w Hw. specialize (Hm w Hw).
  destruct (m w); [done|].
  destruct Hm as (pre & c & post & w1 & ? & ? & ? & [?|?]).
  - exists pre, c, post, w1. split_and!; try done. by left.
  - exists pre, c, post, w1. split_and!; try done. right. by apply HF.
Qed.

Lemma spec_conseq {A} cfg F (P P' : World → Prop) (m : M A) s
    (Q Q' : A → World → Prop) :
  (∀ w, P' w → P w) → (∀ a w, Q a w → Q' a w) →
  spec cfg F P m s Q → spec cfg F P' m s Q'.
Proof.
  intros HP HQ Hm w Hw. specialize (Hm w (HP w Hw)).
  destruct (m w); [|done]. destruct Hm. auto.
Qed.

(** An external call: where its own effect fails, the call is one of [F]. *)
Lemma spec_external {A} cfg F (P : World → Prop) c
    (act : World → option (A * World)) (Q : A → World → Prop) :
  (∀ w, P w →
     match act w with
     | Some (a, w1) => log w1 = log w ∧ Q a (record (Done c) w1)
     | None => F c
     end) →
  spec cfg F P (external cfg c act) [c] Q.
Proof.
  intros H w Hw. specialize (H w Hw). unfold external.
  destruct (refuses cfg c w) eqn:Hr.
  - exists [], c, [], w. split_and!; try done.
    + by rewrite app_nil_r.
    + by left.
  - destruct (act w) as [[a w1]|].
    + destruct H as [Hlog HQ]. split; [|done]. simpl. by rewrite Hlog.
    + exists [], c, [], w. split_and!; try done.
      * by rewrite app_nil_r.
      * by right.
Qed.

(** The loop rule: [I done s] is the invariant after the iterations over
    [done] have run with the loop-carried value now [s]. *)
Lemma spec_for_fold_from {A S} cfg F (I : list A → S → World → Prop)
    (sc : A → list call) (body : A → S → M S) (xs done : list A) (s0 : S) :
  (∀ pre x post s, xs = pre ++ x :: post →
     spec cfg F (I (done ++ pre) s) (body x s) (sc x) (I (done ++ pre ++ [x]))) →
  spec cfg F (I done s0) (for_fold xs body s0) (concat (sc <$> xs))
       (I (done ++ xs)).
Proof.
  revert done s0. induction xs as [|x xs IH]; intros done s0 Hbody.
  - simpl. apply spec_ret. intros w Hw. by rewrite app_nil_r.
  - simpl. apply spec_bind with (Q1 := I (done ++ [x])).
    + specialize (Hbody [] x xs s0 eq_refl).
      by rewrite app_nil_r in Hbody.
    + intros s1. replace (done ++ x :: xs) with ((done ++ [x]) ++ xs)
        by (by rewrite <- app_assoc).
      apply IH. intros pre y post s ->.
      specialize (Hbody (x :: pre) y post s eq_refl).
      rewrite <- !app_assoc. exact Hbody.
Qed.

Lemma spec_for_fold {A S} cfg F (I : list A → S → World → Prop)
    (sc : A → list call) (body : A → S → M S) (xs : list A) (s0 : S) :
  (∀ pre x post s, xs = pre ++ x :: post →
     spec cfg F (I pre s) (body x s) (sc x) (I (pre ++ [x]))) →
  spec cfg F (I [] s0) (for_fold xs body s0) (concat (sc <$> xs)) (I xs).
Proof. intros H. by apply (spec_for_fold_from cfg F I sc body xs []). Qed.

(** ** The directory during one pass of the outer loop *)

Section Disk.
Variable cfg : Setup.

Lemma render_all_snoc a js j m :
  render_all cfg a (js ++ [j]) m
  = <[frame_file cfg j := mkFile Rendered (renderFrame cfg (startFrame a + j))]>
      (render_all cfg a js m).
Proof. unfold render_all. by rewrite foldl_app. Qed.

Lemma remove_all_snoc js j m :
  remove_all cfg (js ++ [j]) m = delete (frame_file cfg j) (remove_all cfg js m).
Proof. unfold remove_all. by rewrite foldl_app. Qed.

Lemma lookup_render_all_in a js j m :
  j ∈ js →
  render_all cfg a js m !! frame_file cfg j
  = Some (mkFile Rendered (renderFrame cfg (startFrame a + j))).
Proof.
  induction js as [|k js IH] using rev_ind; intros Hin.
  - by apply elem_of_nil in Hin.
  - rewrite render_all_snoc. destruct (decide (k = j)) as [->|Hne].
    + by rewrite lookup_insert_eq.
    + rewrite lookup_insert_ne.
      * apply IH. apply elem_of_app in Hin as [?|Hin]; [done|].
        apply list_elem_of_singleton in Hin. congruence.
      * intros H%frame_file_inj. done.
Qed.

Lemma lookup_render_all_out a js q m :
  q ∉ frame_file cfg <$> js → render_all cfg a js m !! q = m !! q.
Proof.
  induction js as [|k js IH] using rev_ind; intros Hout; [done|].
  rewrite render_all_snoc. rewrite fmap_app in Hout.
  rewrite lookup_insert_ne.
  - apply IH. intros ?. apply Hout, elem_of_app. by left.
  - intros <-. apply Hout, elem_of_app. right. simpl. left.
Qed.

Lemma lookup_remove_all_in js j m :
  j ∈ js → remove_all cfg js m !! frame_file cfg j = None.
Proof.
  induction js as [|k js IH] using rev_ind; intros Hin.
  - by apply elem_of_nil in Hin.
  - rewrite remove_all_snoc. destruct (decide (k = j)) as [->|Hne].
    + by rewrite lookup_delete_eq.
    + rewrite lookup_delete_ne.
      * apply IH. apply elem_of_app in Hin as [?|Hin]; [done|].
        apply list_elem_of_singleton in Hin. congruence.
      * intros H%frame_file_inj. done.
Qed.

Lemma lookup_remove_all_out js q m :
  q ∉ frame_file cfg <$> js → remove_all cfg js m !! q = m !! q.
Proof.
  induction js as [|k js IH] using rev_ind; intros Hout; [done|].
  rewrite remove_all_snoc. rewrite fmap_app in Hout.
  rewrite lookup_delete_ne.
  - apply IH. intros ?. apply Hout, elem_of_app. by left.
  - intros <-. apply Hout, elem_of_app. right. simpl. left.
Qed.

(** Rendering the frames and removing them again leaves the directory
    without the temporary files and otherwise as it was. *)
Lemma remove_render_all a n m :
  remove_all cfg (range n) (render_all cfg a (range n) m)
  = delete_all (temp_files cfg n) m.
Proof.
  apply map_eq. intros q. rewrite lookup_delete_all. unfold temp_files.
  case_decide as Hq.
  - apply list_elem_of_fmap in Hq as (j & -> & Hj).
    by apply lookup_remove_all_in.
  - rewrite lookup_remove_all_out by done.
    by apply lookup_render_all_out.
Qed.

End Disk.
(** ** The calls of the script, one by one *)

Section Calls.
Variable cfg : Setup.
Variable F : call → Prop.

Lemma spec_set_frame_current n (P : World → Prop) (Q : unit → World → Prop) :
  (∀ w, P w → Q tt (record (Done (SetFrameCurrent n)) (with_frame_current n w))) →
  spec cfg F P (set_frame_current cfg n) [SetFrameCurrent n] Q.
Proof. intros H. apply spec_external. intros w Hw. split; [done | auto]. Qed.

Lemma spec_set_filepath p (P : World → Prop) (Q : unit → World → Prop) :
  (∀ w, P w → Q tt (record (Done (SetFilepath p)) (with_filepath p w))) →
  spec cfg F P (set_filepath cfg p) [SetFilepath p] Q.
Proof. intros H. apply spec_external. intros w Hw. split; [done | auto]. Qed.

(** The render call reads the frame number and the path from the world. *)
Lemma spec_render f p (P : World → Prop) (Q : unit → World → Prop) :
  (∀ w, P w →
     frame_current w = f ∧ filepath w = p ∧
     Q tt (record (Done (Render f p))
             (with_fs (<[p +:+ ".png" := mkFile Rendered (renderFrame cfg f)]>
                         (fs w)) w))) →
  spec cfg F P (render cfg) [Render f p] Q.
Proof.
  intros H w Hw. destruct (H w Hw) as (Hf & Hp & HQ). unfold render.
  rewrite Hf, Hp.
  refine (spec_external cfg F (λ w', w' = w) (Render f p) _ Q _ w eq_refl).
  intros ? ->. rewrite Hf, Hp. split; [done | exact HQ].
Qed.

Lemma spec_Image_new x y (P : World → Prop) (Q : Image → World → Prop) :
  (x < 0 ∨ y < 0 ∨ 2 ^ 31 ≤ x ∨ 2 ^ 31 ≤ y → F (ImageNew x y)) →
  (∀ w, P w → 0 ≤ x < 2 ^ 31 → 0 ≤ y < 2 ^ 31 →
        Q (blank x y) (record (Done (ImageNew x y)) w)) →
  spec cfg F P (Image_new cfg x y) [ImageNew x y] Q.
Proof.
  intros HF H. apply spec_external. intros w Hw.
  destruct (0 <=? x) eqn:Hx; destruct (x <? 2 ^ 31) eqn:Hx';
    destruct (0 <=? y) eqn:Hy; destruct (y <? 2 ^ 31) eqn:Hy'; simpl;
    try (apply HF; lia).
  split; [done|]. apply H; [done|lia..].
Qed.

Lemma spec_Image_open p f (P : World → Prop) (Q : Image → World → Prop) :
  (∀ w, P w → fs w !! p = Some f ∧
             Q (content f) (record (Done (ImageOpen p)) w)) →
  spec cfg F P (Image_open cfg p) [ImageOpen p] Q.
Proof.
  intros H. apply spec_external. intros w Hw.
  destruct (H w Hw) as [-> HQ]. simpl. done.
Qed.

Lemma spec_Image_paste sheet image x y (P : World → Prop)
    (Q : Image → World → Prop) :
  (∀ w, P w → Q (paste sheet image x y) (record (Done (Paste x y)) w)) →
  spec cfg F P (Image_paste cfg sheet image x y) [Paste x y] Q.
Proof. intros H. apply spec_external. intros w Hw. split; [done | auto]. Qed.

Lemma spec_os_remove p (P : World → Prop) (Q : unit → World → Prop) :
  (∀ w, P w → is_Some (fs w !! p) ∧
             Q tt (record (Done (OsRemove p))
                     (with_fs (delete p (fs w)) w))) →
  spec cfg F P (os_remove cfg p) [OsRemove p] Q.
Proof.
  intros H. apply spec_external. intros w Hw.
  destruct (H w Hw) as [[f Hf] HQ]. rewrite Hf. simpl. done.
Qed.

Lemma spec_Image_save sheet p (P : World → Prop) (Q : unit → World → Prop) :
  (width sheet ≤ 0 ∨ height sheet ≤ 0 → F (Save p)) →
  (∀ w, P w → 0 < width sheet → 0 < height sheet →
        Q tt (record (Done (Save p))
                (with_fs (<[p := mkFile Saved sheet]> (fs w)) w))) →
  spec cfg F P (Image_save cfg sheet p) [Save p] Q.
Proof.
  intros HF H. apply spec_external. intros w Hw.
  destruct (0 <? width sheet) eqn:Hx; destruct (0 <? height sheet) eqn:Hy;
    simpl; try (apply HF; lia).
  split; [done|]. apply H; [done|lia..].
Qed.

Lemma spec_getitem {A} (l : list A) i x (P : World → Prop)
    (Q : A → World → Prop) :
  0 ≤ i → l !! Z.to_nat i = Some x → (∀ w, P w → Q x w) →
  spec cfg F P (getitem l i) [] Q.
Proof.
  intros Hi Hl H. unfold getitem. cbv zeta.
  destruct (decide (0 ≤ i)) as [_|?]; [|lia].
  destruct (decide (0 ≤ i)) as [_|?]; [|lia].
  rewrite Hl. by apply spec_ret.
Qed.

End Calls.
(** ** One pass of the outer loop *)

Section Pass.
Variable cfg : Setup.
Variable F : call → Prop.

Lemma range_split_notin (n : Z) pre j post :
  range n = pre ++ j :: post → (j ∉ pre) ∧ (j ∈ range n).
Proof.
  intros H. pose proof (NoDup_range n) as Hnd. rewrite H in Hnd.
  split.
  - apply NoDup_app in Hnd as (_ & Hdis & _). intros Hin.
    apply (Hdis j Hin). left.
  - rewrite H. apply elem_of_app. right. left.
Qed.

(** The render loop (lines 25-28). *)
Lemma render_loop_spec a m0 :
  spec cfg F (λ w, fs w = m0)
    (for_each (range (animationLength a)) (λ i,
       set_frame_current cfg (startFrame a + i);;
       set_filepath cfg (frame_prefix cfg +:+ str i);;
       render cfg))
    (render_script cfg a)
    (λ _ w, fs w = render_all cfg a (range (animationLength a)) m0).
Proof.
  unfold for_each, render_script.
  apply (spec_for_fold cfg F (λ pre (_ : unit) w, fs w = render_all cfg a pre m0)).
  intros pre i post _ _.
  apply (spec_bind cfg F _ _ _ [SetFrameCurrent (startFrame a + i)]
           [SetFilepath (frame_prefix cfg +:+ str i);
            Render (startFrame a + i) (frame_prefix cfg +:+ str i)]
           (λ _ w, frame_current w = startFrame a + i ∧
                   fs w = render_all cfg a pre m0)).
  { apply spec_set_frame_current. intros w Hw. done. }
  intros _.
  apply (spec_bind cfg F _ _ _ [SetFilepath (frame_prefix cfg +:+ str i)]
           [Render (startFrame a + i) (frame_prefix cfg +:+ str i)]
           (λ _ w, frame_current w = startFrame a + i ∧
                   filepath w = frame_prefix cfg +:+ str i ∧
                   fs w = render_all cfg a pre m0)).
  { apply spec_set_filepath. intros w [Hf Hw]. done. }
  intros _.
  apply spec_render. intros w (Hf & Hp & Hw). split_and!; [done..|].
  simpl. rewrite render_all_snoc, Hw. done.
Qed.

(** The compositing loops (lines 31-38). *)
Lemma composite_loop_spec a m0 sheet0 :
  spec cfg F (λ w, fs w = render_all cfg a (range (animationLength a)) m0)
    (for_fold (range (len [frame_prefix cfg])) (λ i spriteSheet,
       for_fold (range (animationLength a)) (λ j spriteSheet,
         renderPath ← getitem [frame_prefix cfg] i;
         image ← Image_open cfg ((renderPath +:+ str j) +:+ ".png");
         spriteSheet ← Image_paste cfg spriteSheet image
                         (spriteSize cfg * j) (spriteSize cfg * i);
         os_remove cfg ((renderPath +:+ str j) +:+ ".png");;
         mret spriteSheet) spriteSheet) sheet0)
    (composite_script cfg a)
    (λ sheet w,
       sheet = foldl (λ sheet j,
                        paste sheet (renderFrame cfg (startFrame a + j))
                              (spriteSize cfg * j) (spriteSize cfg * 0))
                     sheet0 (range (animationLength a)) ∧
       fs w = delete_all (temp_files cfg (animationLength a)) m0).
Proof.
  set (pastef := λ sheet j,
         paste sheet (renderFrame cfg (startFrame a + j))
               (spriteSize cfg * j) (spriteSize cfg * 0)).
  set (M0 := render_all cfg a (range (animationLength a)) m0).
  change (range (len [frame_prefix cfg])) with [0]. simpl for_fold at 1.
  rewrite <- (app_nil_r (composite_script cfg a)).
  apply (spec_bind cfg F _ _ _ _ _
           (λ sheet w,
              sheet = foldl pastef sheet0 (range (animationLength a)) ∧
              fs w = remove_all cfg (range (animationLength a)) M0)).
  2:{ intros sheet. apply spec_ret. intros w [-> Hw]. split; [done|].
      rewrite Hw. apply remove_render_all. }
  unfold composite_script.
  set (I := λ pre sheet w, sheet = foldl pastef sheet0 pre ∧
                           fs w = remove_all cfg pre M0).
  apply spec_conseq with (P := I [] sheet0) (Q := I (range (animationLength a)));
    [by intros w Hw | done |].
  apply (spec_for_fold cfg F I). unfold I.
  intros pre j post sheet Hsplit.
  apply range_split_notin in Hsplit as [Hnotin Hin].
  assert (Hfile : remove_all cfg pre M0 !! frame_file cfg j
                  = Some (mkFile Rendered (renderFrame cfg (startFrame a + j)))).
  { rewrite lookup_remove_all_out.
    - by apply lookup_render_all_in.
    - intros (k & Hk%frame_file_inj & Hkin)%list_elem_of_fmap. by subst. }
  apply (spec_bind cfg F _ _ _ [] (composite_calls cfg j)
           (λ r w, r = frame_prefix cfg ∧
                   sheet = foldl pastef sheet0 pre ∧
                   fs w = remove_all cfg pre M0)).
  { by apply (spec_getitem cfg F [frame_prefix cfg] 0 (frame_prefix cfg)). }
  intros renderPath.
  apply (spec_bind cfg F _ _ _ [ImageOpen (frame_file cfg j)]
           [Paste (spriteSize cfg * j) (spriteSize cfg * 0);
            OsRemove (frame_file cfg j)]
           (λ im w, renderPath = frame_prefix cfg ∧
                    im = renderFrame cfg (startFrame a + j) ∧
                    sheet = foldl pastef sheet0 pre ∧
                    fs w = remove_all cfg pre M0)).
  { apply spec_conseq with
      (P := λ w, renderPath = frame_prefix cfg ∧
                 fs w = remove_all cfg pre M0 ∧
                 sheet = foldl pastef sheet0 pre)
      (Q := λ im w, renderPath = frame_prefix cfg ∧
                    im = renderFrame cfg (startFrame a + j) ∧
                    sheet = foldl pastef sheet0 pre ∧
                    fs w = remove_all cfg pre M0);
      [by intros w (? & ? & ?) | done |].
    intros w (-> & Hw & Hs).
    refine (spec_Image_open cfg F (frame_file cfg j)
              (mkFile Rendered (renderFrame cfg (startFrame a + j)))
              (λ w', w' = w) _ _ w eq_refl).
    intros ? ->. rewrite Hw. done. }
  intros image.
  apply (spec_bind cfg F _ _ _ [Paste (spriteSize cfg * j) (spriteSize cfg * 0)]
           [OsRemove (frame_file cfg j)]
           (λ sh w, renderPath = frame_prefix cfg ∧
                    sh = foldl pastef sheet0 (pre ++ [j]) ∧
                    fs w = remove_all cfg pre M0)).
  { apply spec_Image_paste. intros w (-> & -> & -> & Hw).
    split_and!; [done| |done]. by rewrite foldl_app. }
  intros sh.
  rewrite <- (app_nil_r [OsRemove (frame_file cfg j)]).
  apply (spec_bind cfg F _ _ _ [OsRemove (frame_file cfg j)] []
           (λ _ w, sh = foldl pastef sheet0 (pre ++ [j]) ∧
                   fs w = remove_all cfg (pre ++ [j]) M0)).
  { apply spec_conseq with
      (P := λ w, renderPath = frame_prefix cfg ∧
                 sh = foldl pastef sheet0 (pre ++ [j]) ∧
                 fs w = remove_all cfg pre M0)
      (Q := λ (_ : unit) w, sh = foldl pastef sheet0 (pre ++ [j]) ∧
                 fs w = remove_all cfg (pre ++ [j]) M0); [done..|].
    intros w (-> & Hs & Hw).
    refine (spec_os_remove cfg F (frame_file cfg j) (λ w', w' = w) _ _ w eq_refl).
    intros ? ->. split.
    - rewrite Hw, Hfile. done.
    - split; [done|]. simpl. by rewrite remove_all_snoc, Hw. }
  intros _. apply spec_ret. done.
Qed.

End Pass.
(** ** The sheet *)

Section Sheet.
Variable cfg : Setup.
Variable a : Animation.

Lemma compose_snoc js j :
  compose cfg a (js ++ [j])
  = paste (compose cfg a js) (renderFrame cfg (startFrame a + j))
          (spriteSize cfg * j) (spriteSize cfg * 0).
Proof. unfold compose. by rewrite foldl_app. Qed.

(** Pasting never changes the size the sheet was allocated with. *)
Lemma compose_size js :
  width (compose cfg a js) = spriteSize cfg * animationLength a ∧
  height (compose cfg a js) = spriteSize cfg * 1.
Proof.
  induction js as [|j js IH] using rev_ind; [done|].
  rewrite compose_snoc. by rewrite width_paste, height_paste.
Qed.

(** Once frame [j] is pasted, the frames pasted after it leave its cell
    alone, as long as frame [j] is no larger than a cell. *)
Lemma compose_pixel (k : nat) j x y :
  0 ≤ j → j + 1 + Z.of_nat k ≤ animationLength a →
  width (renderFrame cfg (startFrame a + j)) ≤ spriteSize cfg →
  height (renderFrame cfg (startFrame a + j)) ≤ spriteSize cfg →
  inside (renderFrame cfg (startFrame a + j)) x y = true →
  getpixel (compose cfg a (range (j + 1 + Z.of_nat k)))
           (spriteSize cfg * j + x) (spriteSize cfg * 0 + y)
  = getpixel (renderFrame cfg (startFrame a + j)) x y.
Proof.
  intros Hj Hk Hw Hh Hin. pose proof Hin as Hin'.
  apply inside_true in Hin' as [Hx Hy].
  induction k as [|k IH].
  - replace (j + 1 + Z.of_nat 0) with (j + 1) by lia.
    rewrite range_succ by done. rewrite compose_snoc.
    apply getpixel_paste_in; [done|].
    apply inside_true. destruct (compose_size (range j)) as [-> ->]. nia.
  - replace (j + 1 + Z.of_nat (S k)) with ((j + 1 + Z.of_nat k) + 1) by lia.
    rewrite range_succ by lia. rewrite compose_snoc.
    rewrite getpixel_paste_out; [apply IH; lia|].
    apply inside_false. intros [? _]. nia.
Qed.

End Sheet.

(** ** The whole script *)

(** A fact that does not depend on the world is carried through. *)
Lemma spec_pure {A} cfg F (P : World → Prop) (m : M A) s
    (Q : A → World → Prop) (φ : Prop) :
  spec cfg F P m s Q →
  spec cfg F (λ w, P w ∧ φ) m s (λ a w, Q a w ∧ φ).
Proof.
  intros Hm w [Hw Hφ]. specialize (Hm w Hw).
  destruct (m w); [|done]. destruct Hm. done.
Qed.

Section Run.
Variable cfg : Setup.

(** One pass of the outer loop performs [script cfg a] and turns the
    directory [m0] into [after_pass cfg a m0], which takes a sheet that can
    be allocated and saved; when a call raises, the pass stops at that
    call. *)
Lemma generate_one_spec a m0 :
  spec cfg (own_fault cfg a) (λ w, fs w = m0) (generate_one cfg a)
       (script cfg a)
       (λ _ w, fs w = after_pass cfg a m0 ∧ sheet_fits cfg a).
Proof.
  unfold generate_one, script. cbv zeta.
  change ([] ++ [join cfg (basePath cfg) (imageName cfg)])
    with [frame_prefix cfg].
  change (join cfg (basePath cfg) (imageName cfg)) with (frame_prefix cfg).
  change (endFrame a - startFrame a) with (animationLength a).
  set (X := spriteSize cfg * animationLength a).
  set (fits := 0 ≤ X < 2 ^ 31 ∧ 0 ≤ spriteSize cfg * 1 < 2 ^ 31).
  apply (spec_bind cfg _ _ _ _ _ _
           (λ _ w, fs w = render_all cfg a (range (animationLength a)) m0)).
  { apply render_loop_spec. }
  intros _.
  apply (spec_bind cfg _ _ _ _
           [ImageNew X (spriteSize cfg * 1)]
           _
           (λ sheet w,
              (sheet = blank X (spriteSize cfg * 1) ∧
               fs w = render_all cfg a (range (animationLength a)) m0) ∧
              fits)).
  { apply (spec_Image_new cfg _ X (spriteSize cfg * 1)).
    - intros Hbad. left. split; [done|]. unfold X in *. lia.
    - intros w Hw Hx Hy. done. }
  intros sheet0.
  apply (spec_bind cfg _ _ _ _ (composite_script cfg a)
           [Save (sheet_path cfg a)]
           (λ sheet w,
              (sheet = compose cfg a (range (animationLength a)) ∧
               fs w = delete_all (temp_files cfg (animationLength a)) m0) ∧
              fits)).
  { apply spec_conseq with
      (P := λ w, (sheet0 = blank X (spriteSize cfg * 1) ∧
                  fs w = render_all cfg a (range (animationLength a)) m0)
                 ∧ fits)
      (Q := λ sheet w,
              (sheet = compose cfg a (range (animationLength a)) ∧
               fs w = delete_all (temp_files cfg (animationLength a)) m0) ∧
              fits); [done..|].
    intros w [[-> Hw] Hfits].
    pose proof (composite_loop_spec cfg (own_fault cfg a) a m0
                  (blank X (spriteSize cfg * 1)) w Hw) as H.
    destruct (for_fold _ _ _ w); [|done]. destruct H as (? & ? & ?). done. }
  intros sheet.
  apply spec_conseq with
    (P := λ w, (sheet = compose cfg a (range (animationLength a)) ∧
                fs w = delete_all (temp_files cfg (animationLength a)) m0)
               ∧ fits)
    (Q := λ (_ : unit) w, fs w = after_pass cfg a m0 ∧ sheet_fits cfg a);
    [done..|].
  intros w [[-> Hw] [Hx Hy]].
  destruct (compose_size cfg a (range (animationLength a))) as [HW HH].
  refine (spec_Image_save cfg _ _ (sheet_path cfg a) (λ w', w' = w) _ _ _
            w eq_refl).
  - rewrite HW, HH. intros Hbad. right. split; [done|]. lia.
  - intros ? -> Hpw Hph. rewrite HW, HH in *. simpl. rewrite Hw.
    split; [done|]. unfold sheet_fits. fold X. lia.
Qed.

(** The whole run performs the scripts of the animations one after the
    other. *)
Lemma generate_spritesheet_spec animations m0 :
  spec cfg (λ c, ∃ a, a ∈ animations ∧ own_fault cfg a c)
       (λ w, fs w = m0) (generate_spritesheet cfg animations)
       (full_script cfg animations)
       (λ _ w, fs w = after_run cfg animations m0 ∧
               Forall (sheet_fits cfg) animations).
Proof.
  unfold generate_spritesheet, for_each, full_script.
  set (I := λ pre (_ : unit) w,
              fs w = after_run cfg pre m0 ∧ Forall (sheet_fits cfg) pre).
  apply spec_conseq with (P := I [] tt) (Q := I animations);
    [by intros w Hw | done |].
  apply (spec_for_fold cfg _ I). unfold I.
  intros pre a post _ Hsplit.
  apply spec_blame with (F := own_fault cfg a).
  { intros c Hc. exists a. split; [|done].
    rewrite Hsplit. apply elem_of_app. right. left. }
  apply spec_conseq with
    (P := λ w, fs w = after_run cfg pre m0 ∧ Forall (sheet_fits cfg) pre)
    (Q := λ (_ : unit) w,
            (fs w = after_pass cfg a (after_run cfg pre m0)
             ∧ sheet_fits cfg a) ∧ Forall (sheet_fits cfg) pre);
    [done | | apply spec_pure, generate_one_spec].
  intros _ w [[-> Ha] Hpre]. split.
  - unfold after_run. by rewrite foldl_app.
  - apply Forall_app. split; [done|]. by constructor.
Qed.

End Run.

(** ** Outcomes of a pass and of a run *)

Lemma since_app w w' l : log w' = log w ++ l → since w w' = l.
Proof. unfold since. intros ->. by rewrite drop_app_length. Qed.

Lemma since_record e w0 w l :
  log w0 = log w ++ l → since w (record e w0) = l ++ [e].
Proof. intros H. apply since_app. simpl. by rewrite H, app_assoc. Qed.

Lemma generate_one_ok cfg a w u w' :
  generate_one cfg a w = Ok u w' →
  since w w' = Done <$> script cfg a ∧ fs w' = after_pass cfg a (fs w).
Proof.
  intros H. pose proof (generate_one_spec cfg a (fs w) w eq_refl) as Hs.
  rewrite H in Hs. destruct Hs as (Hlog & Hfs & _).
  split; [by apply since_app|done].
Qed.

(** A pass goes through only with a sheet that can be allocated and saved. *)
Lemma generate_one_fits cfg a w u w' :
  generate_one cfg a w = Ok u w' → sheet_fits cfg a.
Proof.
  intros H. pose proof (generate_one_spec cfg a (fs w) w eq_refl) as Hs.
  rewrite H in Hs. by destruct Hs as (_ & _ & ?).
Qed.

Lemma generate_one_fault cfg a w w' :
  generate_one cfg a w = Fault w' →
  ∃ pre c post w0,
    script cfg a = pre ++ c :: post ∧ w' = record (Raised c) w0 ∧
    since w w' = (Done <$> pre) ++ [Raised c] ∧
    (refuses cfg c w0 = true ∨ own_fault cfg a c).
Proof.
  intros H. pose proof (generate_one_spec cfg a (fs w) w eq_refl) as Hs.
  rewrite H in Hs. destruct Hs as (pre & c & post & w0 & Hs & -> & Hlog & Hc).
  exists pre, c, post, w0. split_and!; try done. by apply since_record.
Qed.

Lemma generate_spritesheet_ok cfg animations w u w' :
  generate_spritesheet cfg animations w = Ok u w' →
  since w w' = Done <$> full_script cfg animations ∧
  fs w' = after_run cfg animations (fs w).
Proof.
  intros H.
  pose proof (generate_spritesheet_spec cfg animations (fs w) w eq_refl) as Hs.
  rewrite H in Hs. destruct Hs as (Hlog & Hfs & _).
  split; [by apply since_app|done].
Qed.

Lemma generate_spritesheet_fits cfg animations w u w' :
  generate_spritesheet cfg animations w = Ok u w' →
  Forall (sheet_fits cfg) animations.
Proof.
  intros H.
  pose proof (generate_spritesheet_spec cfg animations (fs w) w eq_refl) as Hs.
  rewrite H in Hs. by destruct Hs as (_ & _ & ?).
Qed.

Lemma generate_spritesheet_fault cfg animations w w' :
  generate_spritesheet cfg animations w = Fault w' →
  ∃ pre c post w0,
    full_script cfg animations = pre ++ c :: post ∧
    w' = record (Raised c) w0 ∧
    since w w' = (Done <$> pre) ++ [Raised c] ∧
    (refuses cfg c w0 = true ∨ ∃ a, a ∈ animations ∧ own_fault cfg a c).
Proof.
  intros H.
  pose proof (generate_spritesheet_spec cfg animations (fs w) w eq_refl) as Hs.
  rewrite H in Hs. destruct Hs as (pre & c & post & w0 & Hs & -> & Hlog & Hc).
  exists pre, c, post, w0. split_and!; try done. by apply since_record.
Qed.

Lemma elem_of_concat {A} (x : A) (ls : list (list A)) :
  x ∈ concat ls ↔ ∃ l, l ∈ ls ∧ x ∈ l.
Proof.
  rewrite list_elem_of_In, in_concat. split.
  - intros (l & Hl & Hx). exists l. by rewrite !list_elem_of_In.
  - intros (l & Hl & Hx). exists l. by rewrite <- !list_elem_of_In.
Qed.

(** ** Reading the log of a pass *)

Section Reading.
Context {B : Type} (g : entry → option B).

Lemma omap_blocks {A} (blk : A → list call) (h : A → list B) (js : list A) :
  (∀ j, omap g (Done <$> blk j) = h j) →
  omap g (Done <$> concat (blk <$> js)) = concat (h <$> js).
Proof.
  intros H. induction js as [|j js IH]; [done|].
  rewrite !fmap_cons. cbn [concat].
  rewrite fmap_app, omap_app, H, IH. done.
Qed.

Lemma concat_singletons {A} (f : A → B) (js : list A) :
  concat ((λ j, [f j]) <$> js) = f <$> js.
Proof.
  induction js as [|j js IH]; [done|].
  rewrite !fmap_cons. cbn [concat]. by rewrite IH.
Qed.

Lemma concat_nils {A} (js : list A) :
  concat ((λ _, @nil B) <$> js) = [].
Proof.
  induction js as [|j js IH]; [done|].
  rewrite !fmap_cons. cbn [concat]. by rewrite IH.
Qed.

(** What a projection sees of the script of a pass: its view of the render
    blocks, of the allocation, of the compositing blocks and of the save. *)
Lemma omap_script cfg a (hr hc : Z → list B) :
  (∀ i, omap g (Done <$> render_calls cfg a i) = hr i) →
  (∀ j, omap g (Done <$> composite_calls cfg j) = hc j) →
  omap g (Done <$> script cfg a)
  = concat (hr <$> range (animationLength a))
    ++ omap g [Done (ImageNew (spriteSize cfg * animationLength a)
                              (spriteSize cfg * 1))]
    ++ concat (hc <$> range (animationLength a))
    ++ omap g [Done (Save (sheet_path cfg a))].
Proof.
  intros Hr Hc. unfold script, render_script, composite_script.
  rewrite !fmap_app, !omap_app.
  rewrite (omap_blocks _ hr) by done. rewrite (omap_blocks _ hc) by done.
  done.
Qed.

End Reading.

Section Views.
Variable cfg : Setup.
Variable a : Animation.

Lemma rendered_frames_script :
  rendered_frames (Done <$> script cfg a)
  = seqZ (startFrame a) (animationLength a).
Proof.
  unfold rendered_frames.
  rewrite (omap_script _ cfg a (λ i, [startFrame a + i]) (λ _, [])) by done.
  rewrite concat_singletons, concat_nils. simpl. rewrite app_nil_r.
  unfold range. rewrite fmap_add_seqZ. f_equal. lia.
Qed.

Lemma frames_set_script :
  frames_set (Done <$> script cfg a)
  = seqZ (startFrame a) (animationLength a).
Proof.
  unfold frames_set.
  rewrite (omap_script _ cfg a (λ i, [startFrame a + i]) (λ _, [])) by done.
  rewrite concat_singletons, concat_nils. simpl. rewrite app_nil_r.
  unfold range. rewrite fmap_add_seqZ. f_equal. lia.
Qed.

Lemma rendered_paths_script :
  rendered_paths (Done <$> script cfg a)
  = (λ i, frame_prefix cfg +:+ str i) <$> range (animationLength a).
Proof.
  unfold rendered_paths.
  rewrite (omap_script _ cfg a (λ i, [frame_prefix cfg +:+ str i]) (λ _, []))
    by done.
  rewrite concat_singletons, concat_nils. simpl. by rewrite app_nil_r.
Qed.

Lemma opened_paths_script :
  opened_paths (Done <$> script cfg a) = temp_files cfg (animationLength a).
Proof.
  unfold opened_paths.
  rewrite (omap_script _ cfg a (λ _, []) (λ j, [frame_file cfg j])) by done.
  rewrite concat_singletons, concat_nils. simpl. by rewrite app_nil_r.
Qed.

Lemma removed_paths_script :
  removed_paths (Done <$> script cfg a) = temp_files cfg (animationLength a).
Proof.
  unfold removed_paths.
  rewrite (omap_script _ cfg a (λ _, []) (λ j, [frame_file cfg j])) by done.
  rewrite concat_singletons, concat_nils. simpl. by rewrite app_nil_r.
Qed.

Lemma paste_offsets_script :
  paste_offsets (Done <$> script cfg a)
  = (λ j, (spriteSize cfg * j, spriteSize cfg * 0))
      <$> range (animationLength a).
Proof.
  unfold paste_offsets.
  rewrite (omap_script _ cfg a (λ _, [])
             (λ j, [(spriteSize cfg * j, spriteSize cfg * 0)])) by done.
  rewrite concat_singletons, concat_nils. simpl. by rewrite app_nil_r.
Qed.

Lemma allocated_sizes_script :
  allocated_sizes (Done <$> script cfg a)
  = [(spriteSize cfg * animationLength a, spriteSize cfg * 1)].
Proof.
  unfold allocated_sizes.
  rewrite (omap_script _ cfg a (λ _, []) (λ _, [])) by done.
  by rewrite !concat_nils.
Qed.

Lemma saved_paths_script :
  saved_paths (Done <$> script cfg a) = [sheet_path cfg a].
Proof.
  unfold saved_paths.
  rewrite (omap_script _ cfg a (λ _, []) (λ _, [])) by done.
  by rewrite !concat_nils.
Qed.

End Views.

Lemma saved_paths_full_script cfg animations :
  saved_paths (Done <$> full_script cfg animations)
  = sheet_path cfg <$> animations.
Proof.
  unfold full_script. induction animations as [|a animations IH]; [done|].
  rewrite !fmap_cons. cbn [concat]. rewrite fmap_app.
  unfold saved_paths at 1. rewrite omap_app.
  fold (saved_paths (Done <$> script cfg a)).
  fold (saved_paths (Done <$> concat (script cfg <$> animations))).
  by rewrite IH, saved_paths_script.
Qed.

Lemma raised_done (s : list call) : raised (Done <$> s) = [].
Proof. induction s as [|c s IH]; [done|]. rewrite fmap_cons. exact IH. Qed.

Lemma attempted_done (s : list call) : attempted (Done <$> s) = s.
Proof.
  unfold attempted. induction s as [|c s IH]; [done|].
  rewrite !fmap_cons. by rewrite IH.
Qed.

(** ** The directory after a pass and after a run *)

Section After.
Variable cfg : Setup.

Lemma after_run_snoc animations a m :
  after_run cfg (animations ++ [a]) m
  = after_pass cfg a (after_run cfg animations m).
Proof. unfold after_run. by rewrite foldl_app. Qed.

Lemma lookup_after_pass_sheet a m :
  after_pass cfg a m !! sheet_path cfg a
  = Some (mkFile Saved (compose cfg a (range (animationLength a)))).
Proof. unfold after_pass. by rewrite lookup_insert_eq. Qed.

Lemma lookup_after_pass_ne a m q :
  q ≠ sheet_path cfg a →
  after_pass cfg a m !! q
  = if decide (q ∈ temp_files cfg (animationLength a)) then None else m !! q.
Proof.
  intros Hq. unfold after_pass. rewrite lookup_insert_ne by done.
  apply lookup_delete_all.
Qed.

(** A pass leaves no file of the renderer behind that was not there before. *)
Lemma rendered_after_pass a m p f :
  after_pass cfg a m !! p = Some f → origin f = Rendered → m !! p = Some f.
Proof.
  intros Hp Ho. destruct (decide (p = sheet_path cfg a)) as [->|Hne].
  - rewrite lookup_after_pass_sheet in Hp. injection Hp as <-. done.
  - rewrite lookup_after_pass_ne in Hp by done. by case_decide.
Qed.

Lemma rendered_after_run animations m p f :
  after_run cfg animations m !! p = Some f → origin f = Rendered →
  m !! p = Some f.
Proof.
  induction animations as [|a animations IH] using rev_ind; [done|].
  rewrite after_run_snoc. intros Hp Ho.
  apply IH; [|done]. by apply (rendered_after_pass a).
Qed.

Lemma no_rendered_after_run animations m :
  no_rendered m → no_rendered (after_run cfg animations m).
Proof.
  intros Hm p f Hp Ho. apply (Hm p f); [|done].
  by apply (rendered_after_run animations).
Qed.

(** A temporary path of any animation of the run holds no file at the end,
    unless it is also the path of a sheet. *)
Lemma lookup_after_run_temp animations m a j :
  a ∈ animations → 0 ≤ j < animationLength a →
  (∀ b, b ∈ animations → sheet_path cfg b ≠ frame_file cfg j) →
  after_run cfg animations m !! frame_file cfg j = None.
Proof.
  intros Ha Hj. revert Ha.
  induction animations as [|b animations IH] using rev_ind; intros Ha Hne.
  - by apply elem_of_nil in Ha.
  - rewrite after_run_snoc. rewrite lookup_after_pass_ne.
    2:{ intros Heq. apply (Hne b); [|done]. apply elem_of_app. right. left. }
    case_decide as Htmp; [done|].
    apply elem_of_app in Ha as [Ha|Ha].
    + apply IH; [done|]. intros c Hc. apply Hne, elem_of_app. by left.
    + apply list_elem_of_singleton in Ha as ->. exfalso. apply Htmp.
      unfold temp_files. apply list_elem_of_fmap_2. by apply elem_of_range.
Qed.

End After.

(** ** Order of the calls *)

Lemma prepared_from_other x y s :
  Forall (λ c, is_render c = false) s → prepared_from x y s = true.
Proof.
  intros H. revert x y. induction H as [|c s Hc _ IH]; intros x y; [done|].
  simpl. rewrite IH. by destruct c.
Qed.

Lemma prepared_from_other_app x y s1 s2 :
  Forall (λ c, is_render c = false) s1 →
  (∀ x y, prepared_from x y s2 = true) →
  prepared_from x y (s1 ++ s2) = true.
Proof.
  intros H H2. revert x y. induction H as [|c s Hc _ IH]; intros x y.
  - apply H2.
  - simpl. rewrite IH. by destruct c.
Qed.

Lemma prepared_from_render_blocks cfg a js tail x y :
  (∀ x y, prepared_from x y tail = true) →
  prepared_from x y (concat (render_calls cfg a <$> js) ++ tail) = true.
Proof.
  intros Ht. revert x y. induction js as [|j js IH]; intros x y.
  - apply Ht.
  - rewrite fmap_cons. cbn [concat]. unfold render_calls at 1.
    simpl. rewrite IH. by rewrite bool_decide_eq_true_2.
Qed.

Lemma prepared_from_prefix x y s1 s2 :
  prepared_from x y (s1 ++ s2) = true → prepared_from x y s1 = true.
Proof.
  revert x y. induction s1 as [|c s1 IH]; intros x y; [done|].
  simpl. rewrite !andb_true_iff. intros [Hc H]. split; [done|].
  by apply IH.
Qed.

Lemma prepared_script cfg a : prepared (script cfg a) = true.
Proof.
  unfold prepared, script, render_script.
  apply prepared_from_render_blocks. intros x y.
  apply prepared_from_other.
  apply Forall_app. split; [by constructor|].
  apply Forall_app. split; [|by constructor].
  unfold composite_script. apply Forall_concat, Forall_fmap, Forall_true.
  intros j. unfold composite_calls. by repeat constructor.
Qed.

Lemma StronglySorted_seqZ m n : StronglySorted Z.lt (seqZ m n).
Proof.
  destruct (decide (0 ≤ n)) as [Hn|Hn]; [|rewrite seqZ_nil by lia; constructor].
  rewrite <- (Z2Nat.id n) by done.
  induction (Z.to_nat n) as [|k IH]; [constructor|].
  rewrite seqZ_S. apply StronglySorted_app.
  split_and!; [|done|by repeat constructor].
  intros x1 x2 Hx1%elem_of_seqZ Hx2%list_elem_of_singleton. lia.
Qed.

(** ** The properties of the specification *)

Lemma lookup_range (n j : Z) : 0 ≤ j < n → range n !! Z.to_nat j = Some j.
Proof.
  intros H. unfold range. rewrite lookup_seqZ_lt by lia. f_equal. lia.
Qed.

Lemma range_prefix (n m : Z) : n ≤ m → range n `prefix_of` range m.
Proof.
  intros H. destruct (decide (0 ≤ n)) as [Hn|Hn].
  - exists (seqZ n (m - n)). unfold range.
    replace m with (n + (m - n)) at 1 by lia. by rewrite seqZ_app by lia.
  - rewrite range_nonpos by lia. apply prefix_nil.
Qed.

(** C1: for an animation descriptor with [endFrame ≥ startFrame], a pass that
    goes through renders exactly [endFrame - startFrame] frames; the scene's
    current frame is set to, and rendered at, [startFrame], [startFrame + 1],
    ..., [endFrame - 1], in this order, and the frame numbered [endFrame] is
    never rendered. *)
Theorem C1_frames_rendered cfg a w w' :
  startFrame a ≤ endFrame a →
  generate_one cfg a w = Ok tt w' →
  frames_set (since w w') = seqZ (startFrame a) (endFrame a - startFrame a) ∧
  rendered_frames (since w w')
    = seqZ (startFrame a) (endFrame a - startFrame a) ∧
  Z.of_nat (length (rendered_frames (since w w')))
    = endFrame a - startFrame a ∧
  (∀ f, f ∈ rendered_frames (since w w') ↔ startFrame a ≤ f < endFrame a) ∧
  endFrame a ∉ rendered_frames (since w w').
Proof.
  intros Hle Hrun. apply generate_one_ok in Hrun as [-> _].
  rewrite frames_set_script, rendered_frames_script.
  unfold animationLength. split_and!; try done.
  - rewrite length_seqZ. lia.
  - intros f. rewrite elem_of_seqZ. lia.
  - rewrite elem_of_seqZ. lia.
Qed.

Lemma C1_frames_rendered_witness :
  (startFrame Demo.walk ≤ endFrame Demo.walk ∧
   generate_one Demo.scene Demo.walk Demo.empty
   = Ok tt (pass_end Demo.scene Demo.walk Demo.empty)) ∧
  rendered_frames (since Demo.empty (pass_end Demo.scene Demo.walk Demo.empty))
  = [1; 2; 3].
Proof.
  assert (H1 : startFrame Demo.walk ≤ endFrame Demo.walk) by (simpl; lia).
  assert (H2 : generate_one Demo.scene Demo.walk Demo.empty
               = Ok tt (pass_end Demo.scene Demo.walk Demo.empty))
    by (vm_compute; reflexivity).
  split; [by split|].
  destruct (C1_frames_rendered _ _ _ _ H1 H2) as (_ & -> & _).
  reflexivity.
Defined.
(** C2: a pass that goes through allocates the canvas with width
    [spriteSize * (endFrame - startFrame)] and height [spriteSize * R], where
    [R] is the number of entries of [renderPaths], and this is the size of
    the sheet it saves; for the script's own animation
    [{name: 'walk', startFrame: 1, endFrame: 20}] and [spriteSize = 64] the
    saved [walk.png] is 1216 wide and 64 high. *)
Theorem C2_canvas_size :
  (∀ cfg a w w',
     generate_one cfg a w = Ok tt w' →
     allocated_sizes (since w w')
     = [(spriteSize cfg * (endFrame a - startFrame a),
         spriteSize cfg * len [join cfg (basePath cfg) (imageName cfg)])] ∧
     ∃ f, fs w' !! sheet_path cfg a = Some f ∧
          width (content f) = spriteSize cfg * (endFrame a - startFrame a) ∧
          height (content f)
          = spriteSize cfg * len [join cfg (basePath cfg) (imageName cfg)]) ∧
  (∀ refuses renderFrame join w w',
     generate_spritesheet (Source.setup refuses renderFrame join 64)
                          Source.animations w = Ok tt w' →
     ∃ f, fs w' !! "G:\Files\Media\Blender\Spritesheet\walk.png" = Some f ∧
          width (content f) = 1216 ∧ height (content f) = 64).
Proof.
  split.
  - intros cfg a w w' Hrun. apply generate_one_ok in Hrun as [-> Hfs].
    rewrite allocated_sizes_script. split; [done|].
    eexists. rewrite Hfs. split; [apply lookup_after_pass_sheet|].
    apply compose_size.
  - intros refuses renderFrame join w w' Hrun.
    apply generate_spritesheet_ok in Hrun as [_ Hfs].
    eexists. rewrite Hfs. split.
    + exact (lookup_after_pass_sheet
               (Source.setup refuses renderFrame join 64)
               (mkAnimation "walk" 1 20) (fs w)).
    + destruct (compose_size (Source.setup refuses renderFrame join 64)
                  (mkAnimation "walk" 1 20) (range 19)) as [Hw Hh].
      split; [exact Hw | exact Hh].
Qed.

Lemma C2_canvas_size_witness :
  (generate_one Demo.scene Demo.walk Demo.empty
   = Ok tt (pass_end Demo.scene Demo.walk Demo.empty) ∧
   generate_spritesheet
     (Source.setup (λ _ _, false) Demo.frame Demo.ntpath_join 64)
     Source.animations Demo.empty
   = Ok tt (run_end (Source.setup (λ _ _, false) Demo.frame
                                  Demo.ntpath_join 64)
                    Source.animations Demo.empty)) ∧
  allocated_sizes (since Demo.empty (pass_end Demo.scene Demo.walk Demo.empty))
  = [(6, 2)] ∧
  ∃ f, fs (run_end (Source.setup (λ _ _, false) Demo.frame
                                 Demo.ntpath_join 64)
                   Source.animations Demo.empty)
         !! "G:\Files\Media\Blender\Spritesheet\walk.png" = Some f ∧
       width (content f) = 1216 ∧ height (content f) = 64.
Proof.
  assert (H1 : generate_one Demo.scene Demo.walk Demo.empty
               = Ok tt (pass_end Demo.scene Demo.walk Demo.empty))
    by (vm_compute; reflexivity).
  assert (H2 : generate_spritesheet
                 (Source.setup (λ _ _, false) Demo.frame Demo.ntpath_join 64)
                 Source.animations Demo.empty
               = Ok tt (run_end (Source.setup (λ _ _, false) Demo.frame
                                              Demo.ntpath_join 64)
                                Source.animations Demo.empty))
    by (vm_compute; reflexivity).
  split; [by split|].
  destruct C2_canvas_size as [Hone Hsrc].
  destruct (Hone _ _ _ _ H1) as [-> _].
  split; [reflexivity|].
  exact (Hsrc _ _ _ _ _ H2).
Defined.

(** C3: in a pass that goes through, the frame with index [j], rendered at
    frame number [startFrame + j] into the [j]-th temporary file, is opened
    from that file and pasted at the pixel offset
    [(spriteSize * j, spriteSize * 0)] (the row index is always 0).  Right
    after its paste the pasted region shows the rendered frame pixel for
    pixel, and so does the saved sheet when the frame is no larger than a
    cell of [spriteSize] by [spriteSize]. *)
Theorem C3_frame_placement cfg a w w' j :
  generate_one cfg a w = Ok tt w' →
  0 ≤ j < animationLength a →
  rendered_frames (since w w') !! Z.to_nat j = Some (startFrame a + j) ∧
  rendered_paths (since w w') !! Z.to_nat j
    = Some (join cfg (basePath cfg) (imageName cfg) +:+ str j) ∧
  opened_paths (since w w') !! Z.to_nat j
    = Some ((join cfg (basePath cfg) (imageName cfg) +:+ str j) +:+ ".png") ∧
  paste_offsets (since w w') !! Z.to_nat j
    = Some (spriteSize cfg * j, spriteSize cfg * 0) ∧
  (∀ x y,
     inside (renderFrame cfg (startFrame a + j)) x y = true →
     inside (compose cfg a (range j))
            (spriteSize cfg * j + x) (spriteSize cfg * 0 + y) = true →
     getpixel (compose cfg a (range (j + 1)))
              (spriteSize cfg * j + x) (spriteSize cfg * 0 + y)
     = getpixel (renderFrame cfg (startFrame a + j)) x y) ∧
  ∃ f, fs w' !! sheet_path cfg a = Some f ∧
       content f = compose cfg a (range (animationLength a)) ∧
       (width (renderFrame cfg (startFrame a + j)) ≤ spriteSize cfg →
        height (renderFrame cfg (startFrame a + j)) ≤ spriteSize cfg →
        ∀ x y,
          inside (renderFrame cfg (startFrame a + j)) x y = true →
          getpixel (content f)
                   (spriteSize cfg * j + x) (spriteSize cfg * 0 + y)
          = getpixel (renderFrame cfg (startFrame a + j)) x y).
Proof.
  intros Hrun Hj. apply generate_one_ok in Hrun as [-> Hfs].
  rewrite rendered_frames_script, rendered_paths_script,
    opened_paths_script, paste_offsets_script.
  unfold temp_files. rewrite !list_lookup_fmap.
  rewrite lookup_range by done. rewrite lookup_seqZ_lt by lia.
  split_and!; try done.
  - f_equal. lia.
  - intros x y Hin Hon. rewrite range_succ by lia. rewrite compose_snoc.
    by apply getpixel_paste_in.
  - eexists. rewrite Hfs. split; [apply lookup_after_pass_sheet|].
    split; [done|]. intros Hw Hh x y Hin. simpl.
    replace (animationLength a)
      with (j + 1 + Z.of_nat (Z.to_nat (animationLength a - j - 1))) at 1
      by lia.
    apply compose_pixel; try done; lia.
Qed.

Lemma C3_frame_placement_witness :
  (generate_one Demo.scene Demo.walk Demo.empty
   = Ok tt (pass_end Demo.scene Demo.walk Demo.empty) ∧
   0 ≤ 1 < animationLength Demo.walk) ∧
  paste_offsets (since Demo.empty (pass_end Demo.scene Demo.walk Demo.empty))
    !! Z.to_nat 1 = Some (2, 0) ∧
  ∃ f, fs (pass_end Demo.scene Demo.walk Demo.empty) !! "D:\out\walk.png"
       = Some f ∧
       getpixel (content f) 3 1 = Some (2, 1, 1, 255).
Proof.
  assert (H1 : generate_one Demo.scene Demo.walk Demo.empty
               = Ok tt (pass_end Demo.scene Demo.walk Demo.empty))
    by (vm_compute; reflexivity).
  assert (H2 : 0 ≤ 1 < animationLength Demo.walk) by (unfold animationLength; simpl; lia).
  split; [by split|].
  destruct (C3_frame_placement Demo.scene Demo.walk _ _ 1 H1 H2)
    as (_ & _ & _ & Hoff & _ & f & Hf & _ & Hpix).
  split; [exact Hoff|].
  exists f. split; [exact Hf|].
  assert (Hw : width (renderFrame Demo.scene (startFrame Demo.walk + 1))
               ≤ spriteSize Demo.scene) by (simpl; lia).
  assert (Hh : height (renderFrame Demo.scene (startFrame Demo.walk + 1))
               ≤ spriteSize Demo.scene) by (simpl; lia).
  exact (Hpix Hw Hh 1 1 eq_refl).
Defined.

Lemma tidy_render_blocks cfg a js tail :
  tidy (concat (render_calls cfg a <$> js) ++ tail) = tidy tail.
Proof.
  induction js as [|j js IH]; [done|].
  rewrite fmap_cons. cbn [concat]. unfold render_calls at 1. simpl. exact IH.
Qed.

Lemma tidy_composite_blocks cfg js tail :
  tidy (concat (composite_calls cfg <$> js) ++ tail) = tidy tail.
Proof.
  induction js as [|j js IH]; [done|].
  rewrite fmap_cons. cbn [concat]. unfold composite_calls at 1. simpl.
  rewrite bool_decide_eq_true_2 by done. exact IH.
Qed.

Lemma tidy_script_app cfg a tail : tidy (script cfg a ++ tail) = tidy tail.
Proof.
  unfold script, render_script, composite_script.
  rewrite <- !app_assoc. rewrite tidy_render_blocks. simpl.
  rewrite tidy_composite_blocks. done.
Qed.

Lemma tidy_full_script cfg animations :
  tidy (full_script cfg animations) = true.
Proof.
  unfold full_script. induction animations as [|a animations IH]; [done|].
  rewrite fmap_cons. cbn [concat]. by rewrite tidy_script_app.
Qed.

(** The files a run removes are the files its renders wrote. *)
Lemma removed_rendered_full_script cfg animations :
  removed_paths (Done <$> full_script cfg animations)
  = (λ p, p +:+ ".png") <$> rendered_paths (Done <$> full_script cfg animations).
Proof.
  unfold full_script, removed_paths, rendered_paths.
  rewrite (omap_blocks _ (script cfg)
             (λ a, temp_files cfg (animationLength a))).
  2:{ intros a. apply removed_paths_script. }
  rewrite (omap_blocks _ (script cfg)
             (λ a, (λ i, frame_prefix cfg +:+ str i)
                     <$> range (animationLength a))).
  2:{ intros a. apply rendered_paths_script. }
  induction animations as [|a animations IH]; [done|].
  rewrite !fmap_cons. cbn [concat]. rewrite fmap_app, IH. f_equal.
  unfold temp_files. rewrite <- list_fmap_compose. done.
Qed.

(** C4: when the run goes through, no file written by the renderer is left:
    the calls are exactly those of the script, in which every frame file is
    opened, pasted and removed at once; the files removed are the files the
    renders wrote; whatever file of the renderer is on disk at the end was
    there, unchanged, before the run; and the temporary path of any frame of
    any animation holds no file, unless a sheet was saved under that very
    path. *)
Theorem C4_no_intermediate_left cfg animations w w' :
  generate_spritesheet cfg animations w = Ok tt w' →
  since w w' = Done <$> full_script cfg animations ∧
  tidy (attempted (since w w')) = true ∧
  removed_paths (since w w')
    = (λ p, p +:+ ".png") <$> rendered_paths (since w w') ∧
  (∀ p f, fs w' !! p = Some f → origin f = Rendered → fs w !! p = Some f) ∧
  (no_rendered (fs w) → no_rendered (fs w')) ∧
  (∀ a j, a ∈ animations → 0 ≤ j < animationLength a →
          (∀ b, b ∈ animations → sheet_path cfg b ≠ frame_file cfg j) →
          fs w' !! frame_file cfg j = None).
Proof.
  intros Hrun. apply generate_spritesheet_ok in Hrun as [-> ->].
  split_and!.
  - done.
  - rewrite attempted_done. apply tidy_full_script.
  - apply removed_rendered_full_script.
  - apply rendered_after_run.
  - apply no_rendered_after_run.
  - intros a j. apply lookup_after_run_temp.
Qed.

Lemma C4_no_intermediate_left_witness :
  generate_spritesheet Demo.scene [Demo.walk; Demo.jump] Demo.used
  = Ok tt (run_end Demo.scene [Demo.walk; Demo.jump] Demo.used) ∧
  no_rendered (fs (run_end Demo.scene [Demo.walk; Demo.jump] Demo.used)) ∧
  fs (run_end Demo.scene [Demo.walk; Demo.jump] Demo.used) !! "D:\out\guy0.png"
  = None.
Proof.
  assert (H : generate_spritesheet Demo.scene [Demo.walk; Demo.jump] Demo.used
              = Ok tt (run_end Demo.scene [Demo.walk; Demo.jump] Demo.used))
    by (vm_compute; reflexivity).
  split; [exact H|].
  destruct (C4_no_intermediate_left _ _ _ _ H)
    as (_ & _ & _ & _ & Hnone & Htemp).
  split.
  - apply Hnone. intros p f Hp Ho.
    destruct (decide (p = "D:\out\guy0.png")) as [->|Hne].
    + vm_compute in Hp. injection Hp as <-. discriminate Ho.
    + unfold Demo.used in Hp. simpl in Hp.
      rewrite lookup_singleton_ne in Hp by done. discriminate Hp.
  - apply (Htemp Demo.walk 0).
    + left.
    + unfold animationLength. simpl. lia.
    + intros b Hb. apply elem_of_cons in Hb as [->|Hb].
      { vm_compute. discriminate. }
      apply list_elem_of_singleton in Hb as ->. vm_compute. discriminate.
Defined.



(** C6: with an empty list of animations the script calls nothing: no render,
    no file written or removed; it ends at once in the world it started
    in. *)
Theorem C6_empty_run cfg w :
  generate_spritesheet cfg [] w = Ok tt w ∧
  since w (run_end cfg [] w) = [] ∧
  rendered_frames (since w (run_end cfg [] w)) = [] ∧
  saved_paths (since w (run_end cfg [] w)) = [] ∧
  fs (run_end cfg [] w) = fs w.
Proof.
  assert (H : since w w = []).
  { apply since_app. by rewrite app_nil_r. }
  unfold run_end. simpl. rewrite H. done.
Qed.

(** C7: within a pass, whether it goes through or stops at a raised call,
    every render call comes directly after the write of [frame_current] and
    the write of [filepath], in this order, and the frame number and the path
    it reads are the ones just written; the frame numbers of the renders are
    strictly increasing. *)
Theorem C7_render_order cfg a w :
  prepared (attempted (since w (pass_end cfg a w))) = true ∧
  StronglySorted Z.lt (rendered_frames (since w (pass_end cfg a w))) ∧
  StronglySorted Z.lt (frames_set (since w (pass_end cfg a w))).
Proof.
  unfold pass_end.
  pose proof (rendered_frames_script cfg a) as Hrf.
  pose proof (frames_set_script cfg a) as Hfs.
  pose proof (StronglySorted_seqZ (startFrame a) (animationLength a)) as Hs.
  destruct (generate_one cfg a w) as [u w'|w'] eqn:Hrun; simpl.
  - apply generate_one_ok in Hrun as [-> _].
    rewrite attempted_done, Hrf, Hfs. split_and!; try done.
    apply prepared_script.
  - apply generate_one_fault in Hrun
      as (pre & c & post & w0 & Hsc & -> & -> & _).
    rewrite Hsc in Hrf, Hfs.
    rewrite fmap_app in Hrf, Hfs.
    unfold rendered_frames, frames_set in *.
    rewrite omap_app in Hrf, Hfs |- *. rewrite omap_app.
    simpl. rewrite !app_nil_r. split_and!.
    + unfold attempted. rewrite fmap_app. simpl.
      fold (attempted (Done <$> pre)). rewrite attempted_done.
      apply (prepared_from_prefix _ _ _ post).
      rewrite <- app_assoc. simpl. rewrite <- Hsc. apply prepared_script.
    + rewrite <- Hrf in Hs. by apply StronglySorted_app_1_l in Hs.
    + rewrite <- Hfs in Hs. by apply StronglySorted_app_1_l in Hs.
Qed.

Lemma raised_snoc pre c :
  raised ((Done <$> pre) ++ [Raised c]) = [c].
Proof.
  unfold raised. rewrite omap_app. fold (raised (Done <$> pre)).
  by rewrite raised_done.
Qed.

(** C8: a call that raises ends the run there and then.  Either no call
    raised and the run performed the whole script; or the run is a fault, the
    calls before the raising one are the script up to it, each made once, the
    raising call is the last entry of the log and the only one that raised,
    and the world is the one in which it was attempted: nothing is retried,
    nothing is called afterwards, no sheet is saved in place of the missing
    one.  The call that raised was refused by the environment, or it is
    [Image.new] with a size it does not take, or the save of an empty
    sheet. *)
Theorem C8_faults_abort cfg animations w :
  match generate_spritesheet cfg animations w with
  | Ok _ w' =>
      since w w' = Done <$> full_script cfg animations ∧
      raised (since w w') = []
  | Fault w' =>
      ∃ pre c post w0,
        full_script cfg animations = pre ++ c :: post ∧
        since w w' = (Done <$> pre) ++ [Raised c] ∧
        raised (since w w') = [c] ∧
        last (since w w') = Some (Raised c) ∧
        w' = record (Raised c) w0 ∧
        fs w' = fs w0 ∧
        (refuses cfg c w0 = true ∨
         (∃ x y, c = ImageNew x y ∧
                 (x < 0 ∨ y < 0 ∨ 2 ^ 31 ≤ x ∨ 2 ^ 31 ≤ y)) ∨
         (∃ a, a ∈ animations ∧ c = Save (sheet_path cfg a) ∧
               (spriteSize cfg * (endFrame a - startFrame a) ≤ 0 ∨
                spriteSize cfg ≤ 0)))
  end ∧
  (is_fault (generate_spritesheet cfg animations w) = true
   ↔ raised (since w (run_end cfg animations w)) ≠ []).
Proof.
  unfold run_end.
  destruct (generate_spritesheet cfg animations w) as [u w'|w'] eqn:Hrun.
  - apply generate_spritesheet_ok in Hrun as [Hlog _].
    cbn [world_of is_fault]. rewrite !Hlog, !raised_done.
    split; [done|]. split; [discriminate | done].
  - apply generate_spritesheet_fault in Hrun
      as (pre & c & post & w0 & Hsc & -> & Hlog & Hc).
    cbn [world_of is_fault]. rewrite !Hlog, !raised_snoc. split; [|done].
    exists pre, c, post, w0. split_and!; try done.
    + by rewrite last_snoc.
    + destruct Hc as [Hc|(a & Ha & [[-> Hbad]|[-> Hbad]])].
      * by left.
      * right. left. eexists _, _. split; [done|]. lia.
      * right. right. exists a. unfold animationLength in Hbad. done.
Qed.

(** What a pass does for a descriptor with no frame: the allocation of an
    empty sheet, and the save that raises on it. *)
Lemma generate_one_empty cfg a w :
  endFrame a = startFrame a →
  generate_one cfg a w
  = if refuses cfg (ImageNew 0 (spriteSize cfg)) w
       || negb ((0 <=? spriteSize cfg) && (spriteSize cfg <? 2 ^ 31))
    then Fault (record (Raised (ImageNew 0 (spriteSize cfg))) w)
    else Fault (record (Raised (Save (sheet_path cfg a)))
                  (record (Done (ImageNew 0 (spriteSize cfg))) w)).
Proof.
  intros Heq. unfold generate_one, for_each. cbv zeta.
  replace (endFrame a - startFrame a) with 0 by lia.
  change (range 0) with (@nil Z).
  change (len ([] ++ [join cfg (basePath cfg) (imageName cfg)])) with 1.
  rewrite Z.mul_0_r, Z.mul_1_r. change (range 1) with [0].
  simpl for_fold. unfold mbind, M_bind, mret, M_ret, Image_new, external.
  destruct (refuses cfg (ImageNew 0 (spriteSize cfg)) w); [done|].
  simpl. destruct ((0 <=? spriteSize cfg) && (spriteSize cfg <? 2 ^ 31));
    [|done].
  simpl. unfold Image_save, external. simpl.
  by destruct (refuses cfg (Save _) _).
Qed.

(** C9, amended: for a descriptor whose [endFrame] equals its [startFrame] a
    pass renders nothing and produces no file.  It asks for a raster 0 wide
    and [spriteSize] high; when that is allocated, the save under the
    animation's name is attempted and raises, because the sheet is empty.
    Either way the pass stops at a raised call, with the directory as it
    was. *)
Theorem C9_empty_animation cfg a w :
  endFrame a = startFrame a →
  is_fault (generate_one cfg a w) = true ∧
  rendered_frames (since w (pass_end cfg a w)) = [] ∧
  saved_paths (since w (pass_end cfg a w)) = [] ∧
  fs (pass_end cfg a w) = fs w ∧
  (since w (pass_end cfg a w) = [Raised (ImageNew 0 (spriteSize cfg))] ∨
   since w (pass_end cfg a w)
   = [Done (ImageNew 0 (spriteSize cfg)); Raised (Save (sheet_path cfg a))]) ∧
  (refuses cfg (ImageNew 0 (spriteSize cfg)) w = false →
   0 ≤ spriteSize cfg < 2 ^ 31 →
   since w (pass_end cfg a w)
   = [Done (ImageNew 0 (spriteSize cfg)); Raised (Save (sheet_path cfg a))]).
Proof.
  intros Heq. unfold pass_end. rewrite (generate_one_empty cfg a w Heq).
  assert (H1 : since w (record (Raised (ImageNew 0 (spriteSize cfg))) w)
               = [Raised (ImageNew 0 (spriteSize cfg))]).
  { apply (since_record _ w w []). by rewrite app_nil_r. }
  assert (H2 : since w (record (Raised (Save (sheet_path cfg a)))
                          (record (Done (ImageNew 0 (spriteSize cfg))) w))
               = [Done (ImageNew 0 (spriteSize cfg));
                  Raised (Save (sheet_path cfg a))]).
  { by apply (since_record _ _ w [Done (ImageNew 0 (spriteSize cfg))]). }
  destruct (refuses cfg (ImageNew 0 (spriteSize cfg)) w) eqn:Hr;
    destruct ((0 <=? spriteSize cfg) && (spriteSize cfg <? 2 ^ 31)) eqn:Hs;
    cbn [orb negb world_of is_fault]; rewrite ?H1, ?H2;
    split_and!; try done; try (by left); try (by right).
  intros _ HS. exfalso. apply andb_false_iff in Hs as [Hs|Hs]; lia.
Qed.

Lemma C9_empty_animation_witness :
  endFrame Demo.idle = startFrame Demo.idle ∧
  is_fault (generate_one Demo.scene Demo.idle Demo.used) = true ∧
  since Demo.used (pass_end Demo.scene Demo.idle Demo.used)
  = [Done (ImageNew 0 2); Raised (Save "D:\out\idle.png")].
Proof.
  assert (H1 : endFrame Demo.idle = startFrame Demo.idle) by reflexivity.
  split; [exact H1|].
  destruct (C9_empty_animation Demo.scene Demo.idle Demo.used H1)
    as (Hf & _ & _ & _ & _ & Hlog).
  split; [exact Hf|].
  apply Hlog; [reflexivity | simpl; lia].
Defined.

(** The claim as it stood, that the pass still produces the file, fails: the
    descriptor [idle] has [endFrame = startFrame], the environment refuses
    nothing, and the pass raises at the save and leaves no [idle.png]. *)
Lemma C9_no_file_for_empty_animation :
  endFrame Demo.idle = startFrame Demo.idle ∧
  benign Demo.scene ∧
  ¬ (∃ w', generate_one Demo.scene Demo.idle Demo.empty = Ok tt w') ∧
  ¬ (∃ f, fs (pass_end Demo.scene Demo.idle Demo.empty)
            !! sheet_path Demo.scene Demo.idle = Some f).
Proof.
  split_and!.
  - reflexivity.
  - intros c w. reflexivity.
  - intros [w' H]. vm_compute in H. discriminate H.
  - intros [f H]. vm_compute in H. discriminate H.
Qed.

(** C10: the temporary files of a pass are named by [basePath] joined with
    [imageName], followed by the loop index, to which the renderer adds
    [.png]: these are the paths handed to the renderer, opened and removed.
    Neither the animation's name nor its [startFrame] occurs in them, so the
    animations of a list use the same temporary paths: the same ones when
    they have the same length, and otherwise the shorter one a prefix of the
    longer one's. *)
Theorem C10_temp_paths cfg :
  (∀ a w w',
     generate_one cfg a w = Ok tt w' →
     rendered_paths (since w w')
     = (λ i, join cfg (basePath cfg) (imageName cfg) +:+ str i)
         <$> range (endFrame a - startFrame a) ∧
     opened_paths (since w w')
     = (λ i, (join cfg (basePath cfg) (imageName cfg) +:+ str i) +:+ ".png")
         <$> range (endFrame a - startFrame a) ∧
     removed_paths (since w w')
     = (λ i, (join cfg (basePath cfg) (imageName cfg) +:+ str i) +:+ ".png")
         <$> range (endFrame a - startFrame a)) ∧
  (∀ a b wa wa' wb wb',
     generate_one cfg a wa = Ok tt wa' →
     generate_one cfg b wb = Ok tt wb' →
     endFrame a - startFrame a ≤ endFrame b - startFrame b →
     rendered_paths (since wa wa') `prefix_of` rendered_paths (since wb wb') ∧
     removed_paths (since wa wa') `prefix_of` removed_paths (since wb wb')) ∧
  (∀ a b wa wa' wb wb',
     generate_one cfg a wa = Ok tt wa' →
     generate_one cfg b wb = Ok tt wb' →
     endFrame a - startFrame a = endFrame b - startFrame b →
     rendered_paths (since wa wa') = rendered_paths (since wb wb') ∧
     opened_paths (since wa wa') = opened_paths (since wb wb') ∧
     removed_paths (since wa wa') = removed_paths (since wb wb')).
Proof.
  split_and!.
  - intros a w w' Hrun. apply generate_one_ok in Hrun as [-> _].
    rewrite rendered_paths_script, opened_paths_script, removed_paths_script.
    done.
  - intros a b wa wa' wb wb' Ha Hb Hle.
    apply generate_one_ok in Ha as [-> _].
    apply generate_one_ok in Hb as [-> _].
    rewrite !rendered_paths_script, !removed_paths_script.
    unfold temp_files.
    destruct (range_prefix (animationLength a) (animationLength b) Hle)
      as [k ->].
    rewrite !fmap_app. split; by eexists.
  - intros a b wa wa' wb wb' Ha Hb Heq.
    apply generate_one_ok in Ha as [-> _].
    apply generate_one_ok in Hb as [-> _].
    rewrite !rendered_paths_script, !opened_paths_script,
      !removed_paths_script.
    unfold animationLength. by rewrite Heq.
Qed.

Lemma C10_temp_paths_witness :
  (generate_one Demo.scene Demo.jump Demo.empty
   = Ok tt (pass_end Demo.scene Demo.jump Demo.empty) ∧
   generate_one Demo.scene Demo.walk Demo.used
   = Ok tt (pass_end Demo.scene Demo.walk Demo.used) ∧
   endFrame Demo.jump - startFrame Demo.jump
   ≤ endFrame Demo.walk - startFrame Demo.walk) ∧
  removed_paths (since Demo.empty (pass_end Demo.scene Demo.jump Demo.empty))
  = ["D:\out\guy0.png"; "D:\out\guy1.png"] ∧
  removed_paths (since Demo.empty (pass_end Demo.scene Demo.jump Demo.empty))
    `prefix_of`
  removed_paths (since Demo.used (pass_end Demo.scene Demo.walk Demo.used)).
Proof.
  assert (H1 : generate_one Demo.scene Demo.jump Demo.empty
               = Ok tt (pass_end Demo.scene Demo.jump Demo.empty))
    by (vm_compute; reflexivity).
  assert (H2 : generate_one Demo.scene Demo.walk Demo.used
               = Ok tt (pass_end Demo.scene Demo.walk Demo.used))
    by (vm_compute; reflexivity).
  assert (H3 : endFrame Demo.jump - startFrame Demo.jump
               ≤ endFrame Demo.walk - startFrame Demo.walk)
    by (simpl; lia).
  split; [by split_and!|].
  destruct (C10_temp_paths Demo.scene) as (Hone & Htwo & _).
  split.
  - destruct (Hone _ _ _ H1) as (_ & _ & ->). reflexivity.
  - exact (proj2 (Htwo _ _ _ _ _ _ H1 H2 H3)).
Defined.

(** ** The script at work on a small scene *)

Example walk_log :
  log (pass_end Demo.scene Demo.walk Demo.empty)
  = Done <$> [SetFrameCurrent 1; SetFilepath "D:\out\guy0";
              Render 1 "D:\out\guy0";
              SetFrameCurrent 2; SetFilepath "D:\out\guy1";
              Render 2 "D:\out\guy1";
              SetFrameCurrent 3; SetFilepath "D:\out\guy2";
              Render 3 "D:\out\guy2";
              ImageNew 6 2;
              ImageOpen "D:\out\guy0.png"; Paste 0 0;
              OsRemove "D:\out\guy0.png";
              ImageOpen "D:\out\guy1.png"; Paste 2 0;
              OsRemove "D:\out\guy1.png";
              ImageOpen "D:\out\guy2.png"; Paste 4 0;
              OsRemove "D:\out\guy2.png";
              Save "D:\out\walk.png"].
Proof. vm_compute. reflexivity. Qed.

Example walk_disk :
  dom (fs (pass_end Demo.scene Demo.walk Demo.empty))
  = ({[ "D:\out\walk.png" ]} : gset string).
Proof. vm_compute. reflexivity. Qed.

(** The renderer crashes on the third frame: the run stops there, nothing is
    composited or saved, and the two frames already rendered stay on disk. *)
Example crash_log :
  is_fault (generate_spritesheet Demo.crashing [Demo.walk; Demo.jump]
                                 Demo.empty) = true ∧
  log (run_end Demo.crashing [Demo.walk; Demo.jump] Demo.empty)
  = [Done (SetFrameCurrent 1); Done (SetFilepath "D:\out\guy0");
     Done (Render 1 "D:\out\guy0");
     Done (SetFrameCurrent 2); Done (SetFilepath "D:\out\guy1");
     Done (Render 2 "D:\out\guy1");
     Done (SetFrameCurrent 3); Done (SetFilepath "D:\out\guy2");
     Raised (Render 3 "D:\out\guy2")] ∧
  dom (fs (run_end Demo.crashing [Demo.walk; Demo.jump] Demo.empty))
  = ({[ "D:\out\guy0.png"; "D:\out\guy1.png" ]} : gset string).
Proof. vm_compute. split_and!; reflexivity. Qed.

(** A sheet named like a temporary file: the next pass renders over it and
    removes it. *)
Example sheet_overwritten :
  fs (run_end Demo.scene [mkAnimation "guy0" 1 2; Demo.jump] Demo.empty)
    !! "D:\out\guy0.png" = None ∧
  saved_paths (log (run_end Demo.scene [mkAnimation "guy0" 1 2; Demo.jump]
                            Demo.empty))
  = ["D:\out\guy0.png"; "D:\out\jump.png"].
Proof. vm_compute. split; reflexivity. Qed.

(** ** Every run is a sequence of single calls *)

Lemma walks_ret {A} cfg (a : A) : walks cfg (mret a).
Proof. intros w. simpl. done. Qed.

Lemma walks_raise {A} cfg : walks cfg (@raise A).
Proof. intros w. simpl. done. Qed.

Lemma walks_bind {A B} cfg (m : M A) (k : A → M B) :
  walks cfg m → (∀ a, walks cfg (k a)) → walks cfg (m ≫= k).
Proof.
  intros Hm Hk w. specialize (Hm w). unfold mbind, M_bind.
  destruct (m w) as [a w1|w1]; simpl in *; [|done].
  etrans; [exact Hm | apply Hk].
Qed.

Lemma walks_for_fold {A S} cfg (xs : list A) (body : A → S → M S) (s : S) :
  (∀ x s, walks cfg (body x s)) → walks cfg (for_fold xs body s).
Proof.
  intros Hbody. revert s. induction xs as [|x xs IH]; intros s.
  - apply walks_ret.
  - simpl. apply walks_bind; [apply Hbody | apply IH].
Qed.

Lemma walks_external {A} cfg c (act : World → option (A * World)) :
  (∀ w a w1, act w = Some (a, w1) → step cfg w (record (Done c) w1)) →
  walks cfg (external cfg c act).
Proof.
  intros H w. unfold external.
  destruct (refuses cfg c w); [apply rtc_once; constructor|].
  destruct (act w) as [[a w1]|] eqn:Hact; simpl.
  - apply rtc_once. by apply (H w a).
  - apply rtc_once. constructor.
Qed.

Lemma walks_getitem {A} cfg (l : list A) i : walks cfg (getitem l i).
Proof.
  unfold getitem. cbv zeta.
  destruct (decide (0 ≤ (if decide (0 ≤ i) then i else len l + i)));
    [|apply walks_raise].
  destruct (l !! _); [apply walks_ret | apply walks_raise].
Qed.

Lemma walks_generate_one cfg a : walks cfg (generate_one cfg a).
Proof.
  unfold generate_one, for_each. cbv zeta.
  apply walks_bind.
  { apply walks_for_fold. intros i _.
    apply walks_bind; [|intros _; apply walks_bind; [|intros _]].
    - apply walks_external. intros w ? ? [= <- <-]. constructor.
    - apply walks_external. intros w ? ? [= <- <-]. constructor.
    - intros w. unfold render, external.
      destruct (refuses cfg _ w); apply rtc_once; constructor. }
  intros _. apply walks_bind.
  { apply walks_external. intros w sheet w1 Hact.
    match type of Hact with
    | (if ?b then _ else _) = _ => destruct b eqn:Hb
    end; [|done].
    injection Hact as <- <-. rewrite !andb_true_iff in Hb.
    constructor; lia. }
  intros sheet0. apply walks_bind.
  { apply walks_for_fold. intros i sheet1.
    apply walks_for_fold. intros j sheet2.
    apply walks_bind; [apply walks_getitem|]. intros renderPath.
    apply walks_bind.
    { apply walks_external. intros w im w1 Hact.
      destruct (fs w !! _) as [f|] eqn:Hf; [|done].
      simpl in Hact. injection Hact as <- <-. by econstructor. }
    intros image. apply walks_bind.
    { apply walks_external. intros w ? ? [= <- <-]. constructor. }
    intros sheet3. apply walks_bind; [|intros _; apply walks_ret].
    apply walks_external. intros w u w1 Hact.
    destruct (fs w !! _) as [f|] eqn:Hf; [|done].
    simpl in Hact. injection Hact as <- <-. constructor. by rewrite Hf. }
  intros sheet. apply walks_external. intros w u w1 Hact.
  match type of Hact with
  | (if ?b then _ else _) = _ => destruct b
  end; [|done].
  injection Hact as <- <-. constructor.
Qed.

Lemma walks_generate_spritesheet cfg animations :
  walks cfg (generate_spritesheet cfg animations).
Proof.
  unfold generate_spritesheet, for_each. apply walks_for_fold.
  intros a _. apply walks_generate_one.
Qed.

(** ** What a sequence of calls keeps *)

Lemma step_log cfg w w' : step cfg w w' → ∃ e, log w' = log w ++ [e].
Proof. intros H. destruct H; eexists; reflexivity. Qed.

Lemma steps_log cfg w w' : rtc (step cfg) w w' → ∃ l, log w' = log w ++ l.
Proof.
  revert w'. apply (rtc_ind_r (λ w', ∃ l, log w' = log w ++ l)).
  - exists []. by rewrite app_nil_r.
  - intros w1 w2 _ Hstep [l Hl].
    apply step_log in Hstep as [e He]. exists (l ++ [e]).
    by rewrite He, Hl, app_assoc.
Qed.

(** A file that no completed call wrote or removed is as it was. *)
Lemma steps_untouched cfg w w' q :
  rtc (step cfg) w w' → q ∉ touched (since w w') → fs w' !! q = fs w !! q.
Proof.
  revert w'.
  apply (rtc_ind_r (λ w', q ∉ touched (since w w') → fs w' !! q = fs w !! q));
    [done|]. intros w1 w2 Hrtc Hstep IH.
  destruct (steps_log _ _ _ Hrtc) as [l Hl].
  rewrite (since_app _ _ _ Hl) in IH. intros Hq.
  destruct Hstep; rewrite (since_record _ _ w l) in Hq by done;
    unfold touched in Hq; rewrite omap_app in Hq; simpl in Hq;
    apply not_elem_of_app in Hq as [Hq Hq']; simpl; try by apply IH.
  - apply not_elem_of_cons in Hq' as [Hq' _].
    rewrite lookup_insert_ne by done. by apply IH.
  - apply not_elem_of_cons in Hq' as [Hq' _].
    rewrite lookup_delete_ne by done. by apply IH.
  - apply not_elem_of_cons in Hq' as [Hq' _].
    rewrite lookup_insert_ne by done. by apply IH.
Qed.



(** A file that was rendered and never removed is on disk. *)
Lemma steps_rendered_kept cfg w w' p :
  rtc (step cfg) w w' →
  p ∈ rendered_paths (since w w') →
  p +:+ ".png" ∉ removed_paths (since w w') →
  is_Some (fs w' !! (p +:+ ".png")).
Proof.
  revert w'.
  apply (rtc_ind_r (λ w', p ∈ rendered_paths (since w w') →
                          p +:+ ".png" ∉ removed_paths (since w w') →
                          is_Some (fs w' !! (p +:+ ".png")))).
  - unfold since. rewrite drop_all. by intros ?%elem_of_nil.
  - intros w1 w2 Hrtc Hstep IH. destruct (steps_log _ _ _ Hrtc) as [l Hl].
    rewrite (since_app _ _ _ Hl) in IH. intros Hin Hout.
    destruct Hstep; rewrite (since_record _ _ w l) in Hin, Hout by done;
      unfold rendered_paths, removed_paths in *;
      rewrite omap_app in Hin, Hout; simpl in Hin, Hout;
      rewrite ?app_nil_r in Hin; rewrite ?app_nil_r in Hout; simpl;
      try by apply IH.
    + apply lookup_insert_is_Some.
      match goal with
      | |- ?a = ?b ∨ _ => destruct (decide (a = b)) as [|Hne]
      end; [by left|right]. split; [done|]. apply IH; [|done].
      apply elem_of_app in Hin as [Hin|Hin]; [done|].
      apply list_elem_of_singleton in Hin. by subst.
    + apply not_elem_of_app in Hout as [Hout Hp].
      apply not_elem_of_cons in Hp as [Hp _].
      rewrite lookup_delete_ne by done. by apply IH.
    + apply lookup_insert_is_Some'. right. by apply IH.
Qed.

(** ** Further properties of the script *)

Lemma run_end_steps cfg animations w :
  rtc (step cfg) w (run_end cfg animations w).
Proof. apply walks_generate_spritesheet. Qed.

(** The log of a run, whatever its outcome, is a leading part of the full
    script in which at most the last call raised. *)
Lemma run_end_log cfg animations w :
  ∃ pre post tail,
    full_script cfg animations = pre ++ post ∧
    since w (run_end cfg animations w) = (Done <$> pre) ++ tail ∧
    (tail = [] ∨ ∃ c, tail = [Raised c]).
Proof.
  unfold run_end.
  destruct (generate_spritesheet cfg animations w) as [u w'|w'] eqn:Hrun.
  - apply generate_spritesheet_ok in Hrun as [Hlog _].
    exists (full_script cfg animations), [], []. simpl.
    rewrite !app_nil_r. split_and!; [done..|by left].
  - apply generate_spritesheet_fault in Hrun
      as (pre & c & post & w0 & Hsc & _ & Hlog & _).
    exists pre, (c :: post), [Raised c]. simpl.
    split_and!; [done..|]. right. by exists c.
Qed.

Lemma touched_script cfg a :
  touched (Done <$> script cfg a)
  = temp_files cfg (animationLength a)
    ++ temp_files cfg (animationLength a) ++ [sheet_path cfg a].
Proof.
  unfold touched.
  rewrite (omap_script _ cfg a (λ i, [frame_file cfg i])
             (λ j, [frame_file cfg j])) by done.
  rewrite !concat_singletons. done.
Qed.

Lemma elem_of_touched_full_script cfg animations q :
  q ∈ touched (Done <$> full_script cfg animations) →
  ∃ a, a ∈ animations ∧
       (q = sheet_path cfg a ∨
        ∃ j, 0 ≤ j < animationLength a ∧ q = frame_file cfg j).
Proof.
  unfold full_script, touched.
  rewrite (omap_blocks _ (script cfg)
             (λ a, temp_files cfg (animationLength a)
                   ++ temp_files cfg (animationLength a)
                   ++ [sheet_path cfg a])).
  2:{ intros a. apply touched_script. }
  intros (l & Hl & Hq)%elem_of_concat.
  apply list_elem_of_fmap in Hl as (a & -> & Ha). exists a. split; [done|].
  rewrite !elem_of_app in Hq. unfold temp_files in Hq.
  destruct Hq as [Hq|[Hq|Hq]].
  - right. apply list_elem_of_fmap in Hq as (j & -> & Hj%elem_of_range). eauto.
  - right. apply list_elem_of_fmap in Hq as (j & -> & Hj%elem_of_range). eauto.
  - left. by apply list_elem_of_singleton in Hq.
Qed.

Lemma pass_end_log cfg a w :
  ∃ pre post tail,
    script cfg a = pre ++ post ∧
    since w (pass_end cfg a w) = (Done <$> pre) ++ tail ∧
    (tail = [] ∨ ∃ c, tail = [Raised c]).
Proof.
  unfold pass_end.
  destruct (generate_one cfg a w) as [u w'|w'] eqn:Hrun.
  - apply generate_one_ok in Hrun as [Hlog _].
    exists (script cfg a), [], []. simpl.
    rewrite !app_nil_r. split_and!; [done..|by left].
  - apply generate_one_fault in Hrun
      as (pre & c & post & w0 & Hsc & _ & Hlog & _).
    exists pre, (c :: post), [Raised c]. simpl.
    split_and!; [done..|]. right. by exists c.
Qed.



Lemma last_full_script cfg animations a :
  last (full_script cfg (animations ++ [a])) = Some (Save (sheet_path cfg a)).
Proof.
  unfold full_script. rewrite fmap_app, concat_app. simpl.
  rewrite app_nil_r. unfold script. rewrite !app_assoc. apply last_snoc.
Qed.

(** Where a path ends up after a run does not depend on the directory the
    run started with, unless the run leaves the path alone. *)
Lemma lookup_after_run_cases cfg animations q :
  (∀ m, after_run cfg animations m !! q = m !! q) ∨
  (∃ v, ∀ m, after_run cfg animations m !! q = v).
Proof.
  induction animations as [|a animations IH] using rev_ind; [by left|].
  destruct (decide (q = sheet_path cfg a)) as [->|Hne].
  { right. eexists. intros m. rewrite after_run_snoc.
    apply lookup_after_pass_sheet. }
  destruct (decide (q ∈ temp_files cfg (animationLength a))) as [Hin|Hout].
  { right. exists None. intros m. rewrite after_run_snoc.
    rewrite lookup_after_pass_ne by done. by rewrite decide_True. }
  destruct IH as [IH|[v IH]]; [left|right; exists v]; intros m;
    rewrite after_run_snoc, lookup_after_pass_ne by done;
    by rewrite decide_False.
Qed.

Lemma after_run_idemp cfg animations m :
  after_run cfg animations (after_run cfg animations m)
  = after_run cfg animations m.
Proof.
  apply map_eq. intros q.
  destruct (lookup_after_run_cases cfg animations q) as [H|[v H]].
  - by rewrite H.
  - by rewrite !H.
Qed.

(** X1: a descriptor whose [endFrame] lies before its [startFrame], with a
    positive [spriteSize], stops the run at its first call: nothing is
    rendered, [Image.new] is asked for a raster of negative width and raises,
    the directory and the renderer's state are as before, and the animations
    after it are not processed. *)
Theorem X1_reversed_range_raises cfg a rest w :
  endFrame a < startFrame a → 0 < spriteSize cfg →
  generate_spritesheet cfg (a :: rest) w
  = Fault (record (Raised (ImageNew (spriteSize cfg * (endFrame a - startFrame a))
                                    (spriteSize cfg * 1))) w).
Proof.
  intros Hlt HS. unfold generate_spritesheet, for_each. simpl.
  unfold mbind at 1, M_bind at 1.
  assert (Hone : generate_one cfg a w
                 = Fault (record (Raised (ImageNew
                            (spriteSize cfg * (endFrame a - startFrame a))
                            (spriteSize cfg * 1))) w)).
  { unfold generate_one, for_each. cbv zeta.
    rewrite (range_nonpos (endFrame a - startFrame a)) by lia.
    simpl for_fold at 1.
    unfold mbind, M_bind. simpl. unfold Image_new, external.
    destruct (refuses cfg _ w); [done|].
    replace (0 <=? spriteSize cfg * (endFrame a - startFrame a)) with false;
      [done|]. symmetry. apply Z.leb_gt. nia. }
  by rewrite Hone.
Qed.

Lemma X1_reversed_range_raises_witness :
  (endFrame (mkAnimation "back" 9 4) < startFrame (mkAnimation "back" 9 4) ∧
   0 < spriteSize Demo.scene) ∧
  generate_spritesheet Demo.scene [mkAnimation "back" 9 4; Demo.walk] Demo.used
  = Fault (record (Raised (ImageNew (-10) 2)) Demo.used).
Proof.
  assert (H1 : endFrame (mkAnimation "back" 9 4)
               < startFrame (mkAnimation "back" 9 4)) by (simpl; lia).
  assert (H2 : 0 < spriteSize Demo.scene) by (simpl; lia).
  split; [by split|].
  exact (X1_reversed_range_raises Demo.scene _ [Demo.walk] Demo.used H1 H2).
Defined.

(** X2: whatever the outcome of the run, a file that is neither a temporary
    frame file nor the sheet of one of the animations is left exactly as it
    was. *)
Theorem X2_other_files_untouched cfg animations w q :
  (∀ a j, a ∈ animations → 0 ≤ j < animationLength a → q ≠ frame_file cfg j) →
  (∀ a, a ∈ animations → q ≠ sheet_path cfg a) →
  fs (run_end cfg animations w) !! q = fs w !! q.
Proof.
  intros Htemp Hsheet. apply (steps_untouched cfg); [apply run_end_steps|].
  destruct (run_end_log cfg animations w)
    as (pre & post & tail & Hsc & -> & Htail).
  intros Hq.
  assert (Hq' : q ∈ touched (Done <$> full_script cfg animations)).
  { rewrite Hsc, fmap_app. unfold touched in *. rewrite omap_app in Hq |- *.
    apply elem_of_app in Hq as [Hq|Hq]; [apply elem_of_app; by left|].
    destruct Htail as [->|[c ->]]; by apply elem_of_nil in Hq. }
  apply elem_of_touched_full_script in Hq'
    as (a & Ha & [->|(j & Hj & ->)]).
  - by apply (Hsheet a).
  - by apply (Htemp a j).
Qed.

Lemma X2_other_files_untouched_witness :
  fs (run_end Demo.crashing [Demo.walk] Shelf.cluttered) !! "D:\out\notes.txt"
  = Some (mkFile Foreign (Demo.frame 9)).
Proof.
  rewrite (X2_other_files_untouched Demo.crashing [Demo.walk] Shelf.cluttered
             "D:\out\notes.txt").
  - reflexivity.
  - intros a j Ha%list_elem_of_singleton Hj. subst a.
    unfold animationLength in Hj. simpl in Hj.
    assert (Hc : j = 0 ∨ j = 1 ∨ j = 2) by lia.
    destruct Hc as [-> | [-> | ->]]; vm_compute; discriminate.
  - intros a Ha%list_elem_of_singleton. subst a. vm_compute. discriminate.
Defined.



(** X4: whatever the outcome of the run, the sheets it saved are those of a
    leading part of the list of animations, in the order of the list; when
    the run stopped at a raised call, at least one animation has no sheet. *)
Theorem X4_sheets_saved_so_far cfg animations w :
  saved_paths (since w (run_end cfg animations w))
    `prefix_of` (sheet_path cfg <$> animations) ∧
  (is_fault (generate_spritesheet cfg animations w) = true →
   (length (saved_paths (since w (run_end cfg animations w)))
    < length animations)%nat).
Proof.
  pose proof (saved_paths_full_script cfg animations) as Hall.
  unfold run_end.
  destruct (generate_spritesheet cfg animations w) as [u w'|w'] eqn:Hrun;
    cbn [world_of is_fault].
  - apply generate_spritesheet_ok in Hrun as [-> _].
    rewrite Hall. split; [done|discriminate].
  - apply generate_spritesheet_fault in Hrun
      as (pre & c & post & w0 & Hsc & _ & -> & _).
    rewrite Hsc, fmap_app in Hall. unfold saved_paths in *.
    rewrite omap_app in Hall |- *. simpl. rewrite app_nil_r.
    split; [eexists; by rewrite <- Hall|]. intros _.
    apply (f_equal length) in Hall.
    rewrite length_app, length_fmap in Hall.
    enough (0 < length (omap
              (λ e, match e with Done (Save p) => Some p | _ => None end)
              (Done <$> c :: post)))%nat by lia.
    destruct animations as [|a animations _] using rev_ind.
    { by destruct pre. }
    pose proof (last_full_script cfg animations a) as Hlast.
    rewrite Hsc, last_app_cons in Hlast.
    apply last_Some in Hlast as [rest ->].
    rewrite fmap_app, omap_app, length_app. simpl. lia.
Qed.

Lemma X4_sheets_saved_so_far_witness :
  is_fault (generate_spritesheet Demo.crashing [Demo.jump; Demo.walk]
                                 Demo.empty) = true ∧
  saved_paths (since Demo.empty
                 (run_end Demo.crashing [Demo.jump; Demo.walk] Demo.empty))
  = ["D:\out\jump.png"] ∧
  (length (saved_paths (since Demo.empty
                          (run_end Demo.crashing [Demo.jump; Demo.walk]
                                   Demo.empty))) < 2)%nat.
Proof.
  assert (H : is_fault (generate_spritesheet Demo.crashing
                          [Demo.jump; Demo.walk] Demo.empty)
              = true) by (vm_compute; reflexivity).
  split; [exact H|]. split; [vm_compute; reflexivity|].
  exact (proj2 (X4_sheets_saved_so_far Demo.crashing
                  [Demo.jump; Demo.walk] Demo.empty) H).
Defined.

Lemma early_prefix (E L pre post : list call) c :
  E ++ L = pre ++ c :: post →
  Forall (λ c, early c = false) L → early c = true →
  ∃ k, E = pre ++ c :: k.
Proof.
  intros Heq HL Hc. revert pre Heq.
  induction E as [|e E IH]; intros pre Heq.
  - simpl in Heq. rewrite Forall_forall in HL.
    assert (Hin : c ∈ L) by (rewrite Heq; apply elem_of_app; right; left).
    apply HL in Hin. congruence.
  - destruct pre as [|p pre]; simpl in Heq; injection Heq as -> Heq.
    + by exists E.
    + destruct (IH pre Heq) as [k ->]. by exists k.
Qed.

Lemma early_script cfg a pre c post :
  script cfg a = pre ++ c :: post → early c = true →
  Forall (λ c, early c = true) pre.
Proof.
  unfold script. rewrite app_assoc. intros Heq Hc.
  apply early_prefix in Heq as [k Hk]; [|..|done].
  - assert (Hall : Forall (λ c, early c = true)
                     (render_script cfg a
                      ++ [ImageNew (spriteSize cfg * animationLength a)
                                   (spriteSize cfg * 1)])).
    { apply Forall_app. split; [|by repeat constructor].
      unfold render_script. apply Forall_concat, Forall_fmap, Forall_true.
      intros i. unfold render_calls. by repeat constructor. }
    rewrite Hk in Hall. by apply Forall_app in Hall as [? _].
  - apply Forall_app. split; [|by repeat constructor].
    unfold composite_script. apply Forall_concat, Forall_fmap, Forall_true.
    intros j. unfold composite_calls. by repeat constructor.
Qed.

Lemma early_none_removed pre :
  Forall (λ c, early c = true) pre →
  removed_paths (Done <$> pre) = [] ∧ saved_paths (Done <$> pre) = [].
Proof.
  induction 1 as [|c pre Hc _ [IH1 IH2]]; [done|].
  rewrite fmap_cons.
  destruct c; try discriminate Hc; (split; [exact IH1 | exact IH2]).
Qed.

(** X5: the script does not clean up after a raise.  When a pass stops at a
    call made before compositing (a write to the scene, a render or
    [Image.new]), nothing has been removed or saved, and every frame
    rendered so far, the frame files [0] to the number of renders done, is
    left on disk. *)
Theorem X5_rendered_frames_stay cfg a w c :
  Raised c ∈ since w (pass_end cfg a w) →
  early c = true →
  removed_paths (since w (pass_end cfg a w)) = [] ∧
  saved_paths (since w (pass_end cfg a w)) = [] ∧
  ∀ j, 0 ≤ j < Z.of_nat (length (rendered_paths (since w (pass_end cfg a w))))
       → is_Some (fs (pass_end cfg a w) !! frame_file cfg j).
Proof.
  intros Hin Hc.
  pose proof (walks_generate_one cfg a w) as Hsteps.
  unfold pass_end in *.
  destruct (generate_one cfg a w) as [u w'|w'] eqn:Hrun; cbn [world_of] in *.
  { apply generate_one_ok in Hrun as [Hlog _]. rewrite Hlog in Hin.
    apply list_elem_of_fmap in Hin as (? & ? & _). discriminate. }
  apply generate_one_fault in Hrun as (pre & c' & post & w0 & Hsc & -> & Hlog & _).
  rewrite Hlog in Hin.
  assert (c' = c) as ->.
  { apply elem_of_app in Hin as [Hin|Hin].
    - apply list_elem_of_fmap in Hin as (? & ? & _). discriminate.
    - apply list_elem_of_singleton in Hin. by injection Hin. }
  pose proof (early_script cfg a pre c post Hsc Hc) as Hpre.
  destruct (early_none_removed pre Hpre) as [Hrm Hsv].
  assert (Hrm' : removed_paths ((Done <$> pre) ++ [Raised c]) = []).
  { unfold removed_paths in *. rewrite omap_app, Hrm. done. }
  assert (Hsv' : saved_paths ((Done <$> pre) ++ [Raised c]) = []).
  { unfold saved_paths in *. rewrite omap_app, Hsv. done. }
  assert (Hrd : rendered_paths ((Done <$> pre) ++ [Raised c])
                = rendered_paths (Done <$> pre)).
  { unfold rendered_paths. rewrite omap_app. simpl. by rewrite app_nil_r. }
  split_and!; [by rewrite Hlog..|].
  intros j Hj. rewrite Hlog, Hrd in Hj.
  pose proof (rendered_paths_script cfg a) as Hall.
  rewrite Hsc, fmap_app in Hall. unfold rendered_paths in Hall.
  rewrite omap_app in Hall. fold (rendered_paths (Done <$> pre)) in Hall.
  destruct (lookup_lt_is_Some_2 (rendered_paths (Done <$> pre)) (Z.to_nat j))
    as [p Hp]; [lia|].
  assert (Hp' : ((λ i, frame_prefix cfg +:+ str i)
                   <$> range (animationLength a)) !! Z.to_nat j = Some p).
  { rewrite <- Hall. by apply lookup_app_l_Some. }
  rewrite list_lookup_fmap in Hp'. unfold range in Hp'.
  destruct (seqZ 0 (animationLength a) !! Z.to_nat j) as [i|] eqn:Hi;
    [|done].
  apply lookup_seqZ in Hi as [-> _]. injection Hp' as <-.
  replace (0 + Z.of_nat (Z.to_nat j)) with j in Hp by lia.
  apply (steps_rendered_kept cfg w); [done|..].
  - rewrite Hlog, Hrd. by apply list_elem_of_lookup_2 in Hp.
  - rewrite Hlog, Hrm'. apply not_elem_of_nil.
Qed.

Lemma X5_rendered_frames_stay_witness :
  (Raised (Render 3 "D:\out\guy2")
     ∈ since Demo.empty (pass_end Demo.crashing Demo.walk Demo.empty) ∧
   early (Render 3 "D:\out\guy2") = true) ∧
  removed_paths (since Demo.empty (pass_end Demo.crashing Demo.walk Demo.empty))
  = [] ∧
  is_Some (fs (pass_end Demo.crashing Demo.walk Demo.empty)
             !! "D:\out\guy1.png").
Proof.
  assert (H1 : Raised (Render 3 "D:\out\guy2")
                 ∈ since Demo.empty
                     (pass_end Demo.crashing Demo.walk Demo.empty)).
  { vm_compute. do 8 right. left. }
  assert (H2 : early (Render 3 "D:\out\guy2") = true) by reflexivity.
  split; [by split|].
  destruct (X5_rendered_frames_stay Demo.crashing Demo.walk Demo.empty _ H1 H2)
    as (Hrm & _ & Hkept).
  split; [exact Hrm|].
  apply (Hkept 1). vm_compute. split; [discriminate | reflexivity].
Defined.

(** X6: within a pass, whatever its outcome, no two renders are given the
    same path and no file is removed twice: every frame has a temporary file
    of its own, for any base path, image name and [os.path.join]. *)
Theorem X6_temp_files_distinct cfg a w :
  NoDup (rendered_paths (since w (pass_end cfg a w))) ∧
  NoDup (removed_paths (since w (pass_end cfg a w))).
Proof.
  destruct (pass_end_log cfg a w) as (pre & post & tail & Hsc & -> & Htail).
  pose proof (rendered_paths_script cfg a) as Hr.
  pose proof (removed_paths_script cfg a) as Hd.
  rewrite Hsc, fmap_app in Hr, Hd.
  unfold rendered_paths, removed_paths in *.
  rewrite omap_app in Hr, Hd. rewrite !omap_app.
  assert (Ht1 : omap (λ e, match e with
                           | Done (Render _ p) => Some p
                           | _ => None
                           end) tail = []).
  { by destruct Htail as [->|[c ->]]. }
  assert (Ht2 : omap (λ e, match e with
                           | Done (OsRemove p) => Some p
                           | _ => None
                           end) tail = []).
  { by destruct Htail as [->|[c ->]]. }
  rewrite Ht1, Ht2, !app_nil_r. split.
  - assert (Hnd : NoDup ((λ i, frame_prefix cfg +:+ str i)
                           <$> range (animationLength a))).
    { apply NoDup_fmap_2_strong; [|apply NoDup_range].
      intros i j _ _ H. apply String.app_inj in H. by apply str_inj. }
    rewrite <- Hr in Hnd. by apply NoDup_app in Hnd as (? & _ & _).
  - assert (Hnd : NoDup (temp_files cfg (animationLength a))).
    { apply NoDup_fmap_2_strong; [|apply NoDup_range].
      intros i j _ _ H. by apply frame_file_inj in H. }
    rewrite <- Hd in Hnd. by apply NoDup_app in Hnd as (? & _ & _).
Qed.

(** X7: the run goes through only with sheets that can be allocated and
    saved: after a run that went through, every animation of the list has
    [startFrame < endFrame], [spriteSize] is positive, and both sides of its
    sheet, [spriteSize * (endFrame - startFrame)] and [spriteSize], are
    below [2^31].  So a single descriptor without a frame, or a
    [spriteSize] of zero, makes the run raise. *)
Theorem X7_goes_through_only_if cfg animations w w' :
  generate_spritesheet cfg animations w = Ok tt w' →
  Forall (λ a, startFrame a < endFrame a ∧
               0 < spriteSize cfg * (endFrame a - startFrame a) < 2 ^ 31 ∧
               0 < spriteSize cfg < 2 ^ 31) animations.
Proof.
  intros Hrun. apply generate_spritesheet_fits in Hrun.
  eapply Forall_impl; [exact Hrun|].
  intros a [Hx Hy]. unfold animationLength in Hx. split_and!; try lia. nia.
Qed.

Lemma X7_goes_through_only_if_witness :
  generate_spritesheet Demo.scene [Demo.walk; Demo.jump] Shelf.cluttered
  = Ok tt (run_end Demo.scene [Demo.walk; Demo.jump] Shelf.cluttered) ∧
  Forall (λ a, startFrame a < endFrame a ∧
               0 < spriteSize Demo.scene * (endFrame a - startFrame a)
                 < 2 ^ 31 ∧
               0 < spriteSize Demo.scene < 2 ^ 31) [Demo.walk; Demo.jump].
Proof.
  assert (H : generate_spritesheet Demo.scene [Demo.walk; Demo.jump]
                Shelf.cluttered
              = Ok tt (run_end Demo.scene [Demo.walk; Demo.jump]
                               Shelf.cluttered))
    by (vm_compute; reflexivity).
  split; [exact H|].
  exact (X7_goes_through_only_if _ _ _ _ H).
Defined.

(** X8: running the script a second time changes nothing on disk: when both
    runs over the same animations go through, the directory after the second
    is the directory after the first. *)
Theorem X8_second_run_same_directory cfg animations w w1 w2 :
  generate_spritesheet cfg animations w = Ok tt w1 →
  generate_spritesheet cfg animations w1 = Ok tt w2 →
  fs w2 = fs w1.
Proof.
  intros H1 H2.
  apply generate_spritesheet_ok in H1 as [_ Ha].
  apply generate_spritesheet_ok in H2 as [_ Hb].
  rewrite Hb, Ha. apply after_run_idemp.
Qed.

Lemma X8_second_run_same_directory_witness :
  (generate_spritesheet Demo.scene [mkAnimation "guy0" 1 2; Demo.jump]
                        Shelf.cluttered
   = Ok tt (run_end Demo.scene [mkAnimation "guy0" 1 2; Demo.jump]
                    Shelf.cluttered) ∧
   generate_spritesheet Demo.scene [mkAnimation "guy0" 1 2; Demo.jump]
     (run_end Demo.scene [mkAnimation "guy0" 1 2; Demo.jump] Shelf.cluttered)
   = Ok tt (run_end Demo.scene [mkAnimation "guy0" 1 2; Demo.jump]
              (run_end Demo.scene [mkAnimation "guy0" 1 2; Demo.jump]
                       Shelf.cluttered))) ∧
  fs (run_end Demo.scene [mkAnimation "guy0" 1 2; Demo.jump]
        (run_end Demo.scene [mkAnimation "guy0" 1 2; Demo.jump]
                 Shelf.cluttered))
  = fs (run_end Demo.scene [mkAnimation "guy0" 1 2; Demo.jump]
                Shelf.cluttered).
Proof.
  assert (H1 : generate_spritesheet Demo.scene
                 [mkAnimation "guy0" 1 2; Demo.jump] Shelf.cluttered
               = Ok tt (run_end Demo.scene [mkAnimation "guy0" 1 2; Demo.jump]
                                Shelf.cluttered))
    by (vm_compute; reflexivity).
  assert (H2 : generate_spritesheet Demo.scene
                 [mkAnimation "guy0" 1 2; Demo.jump]
                 (run_end Demo.scene [mkAnimation "guy0" 1 2; Demo.jump]
                          Shelf.cluttered)
               = Ok tt (run_end Demo.scene [mkAnimation "guy0" 1 2; Demo.jump]
                          (run_end Demo.scene
                             [mkAnimation "guy0" 1 2; Demo.jump]
                             Shelf.cluttered)))
    by (vm_compute; reflexivity).
  split; [by split|].
  exact (X8_second_run_same_directory _ _ _ _ _ H1 H2).
Defined.
